(** * gostrap: the graceful-shutdown coordinator (pkg/graceful/shutdown.go)

    A shallow embedding of [Manager], of the process-wide [defaultHook] and of
    one run of [Manager.Shutdown], together with the properties the
    specification states about them.

    - Durations are [time.Duration] values: signed 64-bit nanosecond counts,
      kept as [Z].
    - A [ShutdownFunc] is opaque to the coordinator; it is represented by what
      the coordinator can observe of it: whether and with which error it
      returns, whether it waits for [ctx.Done()], and the log line that the
      [RegisterWithName] wrapper writes through the manager's logger.
    - [Manager.Shutdown] starts goroutines; one run of it is a transition
      system whose labels say which goroutine executes its next statement, so
      that a schedule (a list of labels) can be executed with [run]. *)

From Stdlib Require Import ZArith List String Bool Lia Permutation PeanoNat.
Import ListNotations.
Local Open Scope string_scope.
Local Open Scope list_scope.
Local Open Scope Z_scope.

(** ** Log entries (the part of pkg/log the coordinator uses) *)

(** A Go [error], identified by its message. *)
Definition error := string.

Inductive Level := InfoLevel | WarnLevel | ErrorLevel.

(** [log.String(key, val)] and [log.Err(err)]. *)
Inductive Field :=
| String (key val : string)
| Err (err : error).

Record Entry := { level : Level; msg : string; fields : list Field }.

Definition Info (m : string) (fs : list Field) : Entry :=
  {| level := InfoLevel; msg := m; fields := fs |}.
Definition Warn (m : string) (fs : list Field) : Entry :=
  {| level := WarnLevel; msg := m; fields := fs |}.
Definition Error (m : string) (fs : list Field) : Entry :=
  {| level := ErrorLevel; msg := m; fields := fs |}.

Definition is_level (l : Level) (e : Entry) : bool :=
  match l, level e with
  | InfoLevel, InfoLevel | WarnLevel, WarnLevel | ErrorLevel, ErrorLevel => true
  | _, _ => false
  end.

(** The entries [Shutdown] writes. *)
Definition completed_entry : Entry := Info "graceful shutdown completed" [].
Definition timeout_entry : Entry := Warn "graceful shutdown timeout, forcing exit" [].
Definition error_entry (e : error) : Entry := Error "shutdown error" [Err e].
Definition component_entry (name : string) : Entry :=
  Info "shutting down component" [String "component" name].
Definition signal_entry (sig : string) : Entry :=
  Info "received shutdown signal" [String "signal" sig].

Definition is_completed (e : Entry) : bool :=
  is_level InfoLevel e && String.eqb (msg e) "graceful shutdown completed".
Definition is_timeout (e : Entry) : bool := is_level WarnLevel e.
Definition is_error (e : Entry) : bool := is_level ErrorLevel e.

(** The errors carried by the error-level entries of a log, in log order. *)
Definition field_errors (fs : list Field) : list error :=
  flat_map (fun f => match f with Err e => [e] | String _ _ => [] end) fs.
Definition logged_errors (out : list Entry) : list error :=
  flat_map (fun e => if is_error e then field_errors (fields e) else []) out.

Definition count (p : Entry -> bool) (out : list Entry) : nat :=
  List.length (filter p out).

(** ** Shutdown callbacks *)

(** [type ShutdownFunc func(ctx context.Context) error], by its observable
    behaviour when called with the session's context:
    - [Return err]: the call returns [err] ([None] is [nil]);
    - [Block]: the call never returns and never looks at [ctx];
    - [AwaitDone k]: the call blocks on [<-ctx.Done()], then goes on as [k];
    - [LogComponent name k]: the call writes
      [m.logger.Info("shutting down component", log.String("component", name))]
      and goes on as [k]. *)
Inductive ShutdownFunc :=
| Return (err : option error)
| Block
| AwaitDone (k : ShutdownFunc)
| LogComponent (name : string) (k : ShutdownFunc).

(** What a call returns if it returns at all. *)
Fixpoint result (f : ShutdownFunc) : option (option error) :=
  match f with
  | Return r => Some r
  | Block => None
  | AwaitDone k => result k
  | LogComponent _ k => result k
  end.

(** A call that returns without waiting for anything. *)
Fixpoint prompt (f : ShutdownFunc) : bool :=
  match f with
  | Return _ => true
  | Block => false
  | AwaitDone _ => false
  | LogComponent _ k => prompt k
  end.

Definition succeeds (f : ShutdownFunc) : Prop := result f = Some None.
Definition fails_with (e : error) (f : ShutdownFunc) : Prop :=
  result f = Some (Some e).

Definition error_of (r : option (option error)) : list error :=
  match r with Some (Some e) => [e] | _ => [] end.

(** The errors returned by the callbacks of a list. *)
Definition failures (fs : list ShutdownFunc) : list error :=
  flat_map (fun f => error_of (result f)) fs.

(** ** Manager *)

Definition Duration := Z.
Definition Second : Duration := 1000000000.

(** A [log.Logger] value; the coordinator only stores it and calls it, so a
    logger is identified by a name. *)
Definition Logger := string.

(** [type Manager struct]; [mu] guards [callbacks] and has no state of its
    own between calls. *)
Record Manager := {
  timeout : Duration;
  callbacks : list ShutdownFunc;
  logger : Logger
}.

Definition NewManager (timeout : Duration) (logger : Logger) : Manager :=
  let timeout := if timeout <=? 0 then 30 * Second else timeout in
  {| timeout := timeout; callbacks := []; logger := logger |}.

(** [func (m *Manager) Register(fn ShutdownFunc)] *)
Definition Manager_Register (fn : ShutdownFunc) (m : Manager) : Manager :=
  {| timeout := timeout m;
     callbacks := callbacks m ++ [fn];
     logger := logger m |}.

(** [func (m *Manager) RegisterWithName(name string, fn ShutdownFunc)] *)
Definition Manager_RegisterWithName (name : string) (fn : ShutdownFunc)
    (m : Manager) : Manager :=
  Manager_Register (LogComponent name fn) m.

(** ** The process-wide hook *)

(** Managers live on the heap; a [*Manager] is an index into it. *)
Definition ptr := nat.

(** [defaultHook] ([manager] and [once]) and the managers allocated so far. *)
Record World := {
  heap : list Manager;
  hook_manager : option ptr;
  hook_once : bool
}.

(** [var defaultHook = &ShutdownHook{}] in a fresh process. *)
Definition initial_world : World :=
  {| heap := []; hook_manager := None; hook_once := false |}.

Definition deref (w : World) (p : ptr) : option Manager := nth_error (heap w) p.

Fixpoint update {A : Type} (i : nat) (f : A -> A) (l : list A) : list A :=
  match l, i with
  | [], _ => []
  | x :: r, O => f x :: r
  | x :: r, S j => x :: update j f r
  end.

(** [func SetupGracefulShutdown(timeout, logger) *Manager]: [once.Do] runs
    its function only while [once] has not fired. *)
Definition SetupGracefulShutdown (timeout : Duration) (logger : Logger)
    (w : World) : option ptr * World :=
  let w' :=
    if hook_once w then w
    else {| heap := heap w ++ [NewManager timeout logger];
            hook_manager := Some (List.length (heap w));
            hook_once := true |} in
  (hook_manager w', w').

(** [func Register(fn ShutdownFunc)] *)
Definition Register (fn : ShutdownFunc) (w : World) : World :=
  match hook_manager w with
  | Some p => {| heap := update p (Manager_Register fn) (heap w);
                 hook_manager := hook_manager w;
                 hook_once := hook_once w |}
  | None => w
  end.

(** [func RegisterWithName(name string, fn ShutdownFunc)] *)
Definition RegisterWithName (name : string) (fn : ShutdownFunc) (w : World)
    : World :=
  match hook_manager w with
  | Some p => {| heap := update p (Manager_RegisterWithName name fn) (heap w);
                 hook_manager := hook_manager w;
                 hook_once := hook_once w |}
  | None => w
  end.

(** ** One run of [Manager.Wait] / [Manager.Shutdown] *)

(** Where the goroutine that called [Wait] or [Shutdown] stands. *)
Inductive pc :=
| PWait              (* Wait: blocked on [<-quit] *)
| PStart             (* Shutdown: before [context.WithTimeout] *)
| PSnapshot          (* before [m.mu.Lock()] ... [m.mu.Unlock()] *)
| PLoop (i : Z)      (* at the test [i >= 0] of the launch loop *)
| PSpawn             (* before [done := make(...)] and [go func() {wg.Wait(); close(done)}()] *)
| PSelect            (* at [select] *)
| PClose             (* before [close(errChan)] *)
| PDrain             (* at [for err := range errChan] *)
| PReturned.         (* Shutdown has returned, [cancel()] has run *)

(** Where a goroutine started by the launch loop stands. *)
Inductive tstate :=
| TRun (k : ShutdownFunc)  (* inside [fn(ctx)], [k] is what is left of the call *)
| TSend (e : error)        (* at [errChan <- err] *)
| TExit                    (* at the deferred [wg.Done()] *)
| TDone.                   (* finished *)

Record task := { fn : ShutdownFunc; st : tstate }.

(** Where the goroutine [func() { wg.Wait(); close(done) }] stands. *)
Inductive waiter :=
| WNone      (* not started *)
| WWait      (* at [wg.Wait()] *)
| WClose     (* at [close(done)] *)
| WExited.   (* [done] is closed *)

Record session := {
  mgr : Manager;            (* [*m] *)
  out : list Entry;         (* what [m.logger] has written, oldest first *)
  at_ : pc;
  snap : list ShutdownFunc; (* the local [callbacks] *)
  tasks : list task;        (* the goroutines of the launch loop, in launch order *)
  wg : Z;                   (* the counter of [wg] *)
  errChan : list error;     (* the buffer of [errChan], oldest first *)
  errCap : nat;             (* its capacity *)
  errClosed : bool;
  wait : waiter;
  ctxDone : bool;           (* [ctx.Done()] is closed *)
  panicked : bool           (* the process died of a panic *)
}.

(** [m.Wait()] and [m.Shutdown()] on entry. *)
Definition enter (p : pc) (m : Manager) : session :=
  {| mgr := m; out := []; at_ := p; snap := []; tasks := []; wg := 0;
     errChan := []; errCap := 0; errClosed := false; wait := WNone;
     ctxDone := false; panicked := false |}.
Definition Manager_Wait : Manager -> session := enter PWait.
Definition Manager_Shutdown : Manager -> session := enter PStart.

(** [func Wait()]: the run of [Manager.Wait] it enters, if any. *)
Definition Wait (w : World) : option session :=
  match hook_manager w with
  | Some p => option_map Manager_Wait (deref w p)
  | None => None
  end.

(** Field updates. *)
Definition set_mgr (m : Manager) (s : session) : session :=
  {| mgr := m; out := out s; at_ := at_ s; snap := snap s; tasks := tasks s;
     wg := wg s; errChan := errChan s; errCap := errCap s;
     errClosed := errClosed s; wait := wait s; ctxDone := ctxDone s;
     panicked := panicked s |}.
Definition write (e : Entry) (s : session) : session :=
  {| mgr := mgr s; out := out s ++ [e]; at_ := at_ s; snap := snap s;
     tasks := tasks s; wg := wg s; errChan := errChan s; errCap := errCap s;
     errClosed := errClosed s; wait := wait s; ctxDone := ctxDone s;
     panicked := panicked s |}.
Definition goto (p : pc) (s : session) : session :=
  {| mgr := mgr s; out := out s; at_ := p; snap := snap s; tasks := tasks s;
     wg := wg s; errChan := errChan s; errCap := errCap s;
     errClosed := errClosed s; wait := wait s; ctxDone := ctxDone s;
     panicked := panicked s |}.
Definition set_snap (l : list ShutdownFunc) (s : session) : session :=
  {| mgr := mgr s; out := out s; at_ := at_ s; snap := l; tasks := tasks s;
     wg := wg s; errChan := errChan s; errCap := List.length l;
     errClosed := errClosed s; wait := wait s; ctxDone := ctxDone s;
     panicked := panicked s |}.
Definition set_tasks (l : list task) (s : session) : session :=
  {| mgr := mgr s; out := out s; at_ := at_ s; snap := snap s; tasks := l;
     wg := wg s; errChan := errChan s; errCap := errCap s;
     errClosed := errClosed s; wait := wait s; ctxDone := ctxDone s;
     panicked := panicked s |}.
Definition set_wg (n : Z) (s : session) : session :=
  {| mgr := mgr s; out := out s; at_ := at_ s; snap := snap s; tasks := tasks s;
     wg := n; errChan := errChan s; errCap := errCap s;
     errClosed := errClosed s; wait := wait s; ctxDone := ctxDone s;
     panicked := panicked s |}.
Definition set_errChan (l : list error) (s : session) : session :=
  {| mgr := mgr s; out := out s; at_ := at_ s; snap := snap s; tasks := tasks s;
     wg := wg s; errChan := l; errCap := errCap s;
     errClosed := errClosed s; wait := wait s; ctxDone := ctxDone s;
     panicked := panicked s |}.
Definition close_errChan (s : session) : session :=
  {| mgr := mgr s; out := out s; at_ := at_ s; snap := snap s; tasks := tasks s;
     wg := wg s; errChan := errChan s; errCap := errCap s;
     errClosed := true; wait := wait s; ctxDone := ctxDone s;
     panicked := panicked s |}.
Definition set_wait (w : waiter) (s : session) : session :=
  {| mgr := mgr s; out := out s; at_ := at_ s; snap := snap s; tasks := tasks s;
     wg := wg s; errChan := errChan s; errCap := errCap s;
     errClosed := errClosed s; wait := w; ctxDone := ctxDone s;
     panicked := panicked s |}.
Definition close_ctx (s : session) : session :=
  {| mgr := mgr s; out := out s; at_ := at_ s; snap := snap s; tasks := tasks s;
     wg := wg s; errChan := errChan s; errCap := errCap s;
     errClosed := errClosed s; wait := wait s; ctxDone := true;
     panicked := panicked s |}.
Definition panic (s : session) : session :=
  {| mgr := mgr s; out := out s; at_ := at_ s; snap := snap s; tasks := tasks s;
     wg := wg s; errChan := errChan s; errCap := errCap s;
     errClosed := errClosed s; wait := wait s; ctxDone := ctxDone s;
     panicked := true |}.

Definition set_st (j : nat) (t : tstate) (s : session) : session :=
  set_tasks (update j (fun x => {| fn := fn x; st := t |}) (tasks s)) s.

(** [callbacks[i]] for an [int] index; [None] outside the slice, where Go
    panics. *)
Definition index (l : list ShutdownFunc) (i : Z) : option ShutdownFunc :=
  if i <? 0 then None else nth_error l (Z.to_nat i).

(** Who moves. *)
Inductive label :=
| LSignal (sig : string)        (* a signal arrives on [quit] *)
| LMain                         (* the caller runs its next statement *)
| LSelectDone                   (* the caller's [select] takes [<-done] *)
| LSelectCtx                    (* the caller's [select] takes [<-ctx.Done()] *)
| LTask (j : nat)               (* the [j]-th launched goroutine moves *)
| LWaiter                       (* the goroutine of [wg.Wait()] moves *)
| LDeadline                     (* the timer of [ctx] fires *)
| LRegister (fn : ShutdownFunc). (* another goroutine calls [m.Register(fn)] *)

(** The context exists between [context.WithTimeout] and the return. *)
Definition ctx_created (p : pc) : bool :=
  match p with PWait | PStart => false | _ => true end.

(** The caller's statements other than [select]. *)
Definition main_step (s : session) : option session :=
  match at_ s with
  | PStart => Some (goto PSnapshot s)
  | PSnapshot =>
      let s := set_snap (callbacks (mgr s)) s in
      Some (goto (PLoop (Z.of_nat (List.length (snap s)) - 1)) s)
  | PLoop i =>
      if i >=? 0 then
        match index (snap s) i with
        | Some f =>
            let s := set_wg (wg s + 1) s in
            let s := set_tasks (tasks s ++ [{| fn := f; st := TRun f |}]) s in
            Some (goto (PLoop (i - 1)) s)
        | None => Some (panic s)   (* index out of range *)
        end
      else Some (goto PSpawn s)
  | PSpawn => Some (goto PSelect (set_wait WWait s))
  | PClose => Some (goto PDrain (close_errChan s))
  | PDrain =>
      match errChan s with
      | e :: rest => Some (write (error_entry e) (set_errChan rest s))
      | [] =>
          if errClosed s then Some (goto PReturned (close_ctx s))
          else None                             (* open and empty: blocked *)
      end
  | PWait | PSelect | PReturned => None
  end.

(** A launched goroutine:
    [defer wg.Done(); if err := fn(ctx); err != nil { errChan <- err }]. *)
Definition task_step (j : nat) (t : task) (s : session) : option session :=
  match st t with
  | TRun (Return None) => Some (set_st j TExit s)
  | TRun (Return (Some e)) => Some (set_st j (TSend e) s)
  | TRun Block => None
  | TRun (AwaitDone k) =>
      if ctxDone s then Some (set_st j (TRun k) s) else None
  | TRun (LogComponent name k) =>
      Some (write (component_entry name) (set_st j (TRun k) s))
  | TSend e =>
      if errClosed s then Some (panic s)      (* send on closed channel *)
      else if (List.length (errChan s) <? errCap s)%nat
           then Some (set_st j TExit (set_errChan (errChan s ++ [e]) s))
           else None                            (* buffer full: blocked *)
  | TExit =>
      if wg s - 1 <? 0 then Some (panic s)    (* negative WaitGroup counter *)
      else Some (set_st j TDone (set_wg (wg s - 1) s))
  | TDone => None
  end.

Definition waiter_step (s : session) : option session :=
  match wait s with
  | WWait => if wg s =? 0 then Some (set_wait WClose s) else None
  | WClose => Some (set_wait WExited s)
  | WNone | WExited => None
  end.

Definition done_closed (s : session) : bool :=
  match wait s with WExited => true | _ => false end.

(** One move of the process; [None] when the goroutine named by the label
    is blocked, finished or absent, and after a panic. *)
Definition step (l : label) (s : session) : option session :=
  if panicked s then None else
  match l with
  | LSignal sig =>
      match at_ s with
      | PWait => Some (goto PStart (write (signal_entry sig) s))
      | _ => None
      end
  | LMain => main_step s
  | LSelectDone =>
      match at_ s with
      | PSelect =>
          if done_closed s then Some (goto PClose (write completed_entry s))
          else None
      | _ => None
      end
  | LSelectCtx =>
      match at_ s with
      | PSelect =>
          if ctxDone s then Some (goto PClose (write timeout_entry s))
          else None
      | _ => None
      end
  | LTask j =>
      match nth_error (tasks s) j with
      | Some t => task_step j t s
      | None => None
      end
  | LWaiter => waiter_step s
  | LDeadline =>
      if ctx_created (at_ s) && negb (ctxDone s) then Some (close_ctx s)
      else None
  | LRegister f => Some (set_mgr (Manager_Register f (mgr s)) s)
  end.

(** Running a schedule. *)
Fixpoint run (ls : list label) (s : session) : option session :=
  match ls with
  | [] => Some s
  | l :: r => match step l s with Some s' => run r s' | None => None end
  end.

Definition reachable_from (s0 s : session) : Prop :=
  exists ls, run ls s0 = Some s.

(** The states of a run of [m.Shutdown()], and of [m.Wait()]. *)
Definition reachable (s : session) : Prop :=
  exists m p, (p = PWait \/ p = PStart) /\ reachable_from (enter p m) s.

(** ** What the states of a run have in common *)

(** The callbacks launched so far, in launch order. *)
Definition launched (p : pc) (l : list ShutdownFunc) : list ShutdownFunc :=
  match p with
  | PWait | PStart | PSnapshot => []
  | PLoop i => rev (skipn (Z.to_nat (i + 1)) l)
  | _ => rev l
  end.

Definition running (t : task) : bool :=
  match st t with TDone => false | _ => true end.

(** The goroutines that have not called [wg.Done()] yet. *)
Definition undone (l : list task) : nat := List.length (filter running l).

(** The errors that have been put on [errChan]. *)
Definition sent_by (t : task) : list error :=
  match st t with
  | TExit | TDone => error_of (result (fn t))
  | _ => []
  end.
Definition sent (l : list task) : list error := flat_map sent_by l.

(** A goroutine is somewhere inside the call it was started for. *)
Definition coherent (t : task) : Prop :=
  match st t with
  | TRun k => result k = result (fn t)
  | TSend e => result (fn t) = Some (Some e)
  | TExit | TDone => result (fn t) <> None
  end.

Definition before_select (p : pc) : bool :=
  match p with
  | PWait | PStart | PSnapshot | PLoop _ | PSpawn => true
  | _ => false
  end.
Definition judged (p : pc) : bool :=
  match p with PClose | PDrain | PReturned => true | _ => false end.
Definition draining (p : pc) : bool :=
  match p with PDrain | PReturned => true | _ => false end.
Definition joined (w : waiter) : bool :=
  match w with WClose | WExited => true | _ => false end.
Definition not_started (w : waiter) : bool :=
  match w with WNone => true | _ => false end.

Record Inv (s : session) : Prop := {
  inv_loop : forall i, at_ s = PLoop i ->
     -1 <= i < Z.of_nat (List.length (snap s));
  inv_tasks : map fn (tasks s) = launched (at_ s) (snap s);
  inv_cap : errCap s = List.length (snap s);
  inv_wg : wg s = Z.of_nat (undone (tasks s));
  inv_coh : Forall coherent (tasks s);
  inv_errs : Permutation (logged_errors (out s) ++ errChan s) (sent (tasks s));
  inv_entries : filter is_error (out s) = map error_entry (logged_errors (out s));
  inv_wait : not_started (wait s) = before_select (at_ s);
  inv_joined : joined (wait s) = true -> wg s = 0;
  inv_closed : errClosed s = draining (at_ s);
  inv_quiet : draining (at_ s) = false -> logged_errors (out s) = [];
  inv_drained : at_ s = PReturned -> errChan s = [];
  inv_verdict :
    (count is_completed (out s) + count is_timeout (out s))%nat
    = if judged (at_ s) then 1%nat else 0%nat;
  inv_completed : (0 < count is_completed (out s))%nat -> wait s = WExited;
  inv_panicked : panicked s = true -> count is_timeout (out s) = 1%nat
}.

(** The snapshot has been taken. *)
Definition taken (p : pc) : bool :=
  match p with PWait | PStart | PSnapshot => false | _ => true end.

(** The launch loop is over. *)
Definition loop_left (p : pc) : bool :=
  match p with
  | PSpawn | PSelect | PClose | PDrain | PReturned => true
  | _ => false
  end.

Definition is_register (l : label) : bool :=
  match l with LRegister _ => true | _ => false end.
Definition is_deadline (l : label) : bool :=
  match l with LDeadline => true | _ => false end.

(** A schedule in which nobody else registers while the run lasts. *)
Definition undisturbed (ls : list label) : bool :=
  forallb (fun l => negb (is_register l)) ls.

(** A schedule in which the deadline does not expire before the caller's
    [select] has made its choice. *)
Fixpoint deadline_after_wait (ls : list label) : bool :=
  match ls with
  | [] => true
  | LDeadline :: _ => false
  | LSelectDone :: _ | LSelectCtx :: _ => true
  | _ :: r => deadline_after_wait r
  end.

(** Every callback of the snapshot has been launched and has finished. *)
Definition finished (t : task) : bool :=
  match st t with TDone => true | _ => false end.
Definition all_done (s : session) : bool :=
  loop_left (at_ s) && forallb finished (tasks s).

(** A schedule, run from [s], in which every callback has finished when the
    deadline expires, or at the end of the schedule if it does not expire. *)
Fixpoint done_before_deadline (ls : list label) (s : session) : bool :=
  match ls with
  | [] => all_done s
  | LDeadline :: _ => all_done s
  | l :: r =>
      match step l s with
      | Some s' => done_before_deadline r s'
      | None => false
      end
  end.

(** A schedule in which the deadline does not expire at all. *)
Definition no_deadline (ls : list label) : bool :=
  forallb (fun l => negb (is_deadline l)) ls.

(** *** How far a run is from its end

    The statements a run still has to execute when no callback has to wait:
    used to show that such a run can always be brought to its end. *)

Fixpoint size (f : ShutdownFunc) : nat :=
  match f with
  | Return _ | Block => 0
  | AwaitDone k | LogComponent _ k => S (size k)
  end.

Definition st_rank (x : tstate) : nat :=
  match x with
  | TRun k => size k + 4
  | TSend _ => 3
  | TExit => 1
  | TDone => 0
  end.
Definition task_rank (t : task) : nat := st_rank (st t).

Definition waiter_rank (w : waiter) : nat :=
  match w with WNone => 3 | WWait => 2 | WClose => 1 | WExited => 0 end.

Definition pc_rank (p : pc) : nat :=
  match p with
  | PWait => 9 | PStart => 8 | PSnapshot => 7 | PLoop _ => 6 | PSpawn => 5
  | PSelect => 4 | PClose => 3 | PDrain => 2 | PReturned => 0
  end.

(** The callbacks still to be launched. *)
Definition pending (s : session) : list ShutdownFunc :=
  match at_ s with
  | PWait | PStart | PSnapshot => callbacks (mgr s)
  | PLoop i => firstn (Z.to_nat (i + 1)) (snap s)
  | _ => []
  end.

Definition sum (l : list nat) : nat := fold_right Nat.add 0%nat l.

Definition rank (s : session) : nat :=
  (pc_rank (at_ s)
   + sum (map (fun f => size f + 5) (pending s))
   + sum (map task_rank (tasks s))
   + waiter_rank (wait s)
   + List.length (errChan s))%nat.

Definition task_prompt (t : task) : Prop :=
  match st t with TRun k => prompt k = true | _ => True end.

(** A state of a run of [Shutdown] in which no callback has to wait. *)
Record Ready (s : session) : Prop := {
  ready_inv : Inv s;
  ready_alive : panicked s = false;
  ready_called : at_ s <> PWait;
  ready_pending : Forall (fun f => prompt f = true) (pending s);
  ready_tasks : Forall task_prompt (tasks s)
}.

(** ** The scenarios of the specification *)

Definition registered (t : Duration) (fs : list ShutdownFunc) : Manager :=
  fold_left (fun m f => Manager_Register f m) fs (NewManager t "zap").

(** Three callbacks that succeed, the second one registered by name. *)
Definition scenario_ABC : Manager :=
  Manager_Register (Return None)
    (Manager_RegisterWithName "db" (Return None)
       (Manager_Register (Return None) (NewManager Second "zap"))).

(** Everything is launched, [C], [A] and [B] run to their end, the waiter
    closes [done], the caller takes [<-done], closes and drains. *)
Definition schedule_ABC : list label :=
  [LMain; LMain; LMain; LMain; LMain; LMain; LMain;
   LTask 0; LTask 0; LTask 2; LTask 2; LTask 1; LTask 1; LTask 1;
   LWaiter; LWaiter; LSelectDone; LMain; LMain].

(** The same up to the end of the callbacks; then the deadline expires
    before the waiter has closed [done], and the caller's [select] takes
    [<-ctx.Done()]. *)
Definition schedule_ABC_race : list label :=
  [LMain; LMain; LMain; LMain; LMain; LMain; LMain;
   LTask 0; LTask 0; LTask 2; LTask 2; LTask 1; LTask 1; LTask 1;
   LDeadline; LSelectCtx; LMain; LMain].

(** A callback that fails between two that succeed. *)
Definition scenario_D : Manager :=
  registered Second
    [Return None; LogComponent "pool" (Return (Some "disconnect failed"));
     Return None].

Definition schedule_D : list label :=
  [LMain; LMain; LMain; LMain; LMain; LMain; LMain;
   LTask 1; LTask 1; LTask 1; LTask 1; LTask 0; LTask 0; LTask 2; LTask 2;
   LWaiter; LWaiter; LSelectDone; LMain; LMain; LMain].

Definition schedule_D_race : list label :=
  [LMain; LMain; LMain; LMain; LMain; LMain; LMain;
   LTask 1; LTask 1; LTask 1; LTask 1; LTask 0; LTask 0; LTask 2; LTask 2;
   LDeadline; LSelectCtx; LMain; LMain; LMain].

(** One callback that is still inside its call when the deadline expires
    and returns an error afterwards. *)
Definition scenario_E : Manager :=
  registered (200 * 1000000) [Return (Some "connection reset")].

(** The deadline expires, the caller logs the timeout, closes [errChan],
    drains it and returns; then the callback returns its error. *)
Definition schedule_E_late : list label :=
  [LMain; LMain; LMain; LMain; LMain; LDeadline; LSelectCtx; LMain; LMain;
   LTask 0; LTask 0].

(** The deadline expires and the caller logs the timeout; the callback
    returns its error before the caller closes [errChan]. *)
Definition schedule_E_race : list label :=
  [LMain; LMain; LMain; LMain; LMain; LDeadline; LSelectCtx;
   LTask 0; LTask 0; LTask 0; LMain; LMain; LMain].

(** One callback that observes the cancellation and returns the error of
    the context. *)
Definition scenario_F : Manager :=
  registered (200 * 1000000)
    [AwaitDone (Return (Some "context deadline exceeded"))].

(** The deadline expires, the caller logs the timeout and closes [errChan];
    the callback wakes up and returns its error. *)
Definition schedule_F : list label :=
  [LMain; LMain; LMain; LMain; LMain; LDeadline; LSelectCtx; LMain;
   LTask 0; LTask 0; LTask 0].

(** Two callbacks that fail, to tell in which order they finished. *)
Definition scenario_ab : Manager :=
  registered Second [Return (Some "a"); Return (Some "b")].

Definition schedule_ab (first second : nat) : list label :=
  [LMain; LMain; LMain; LMain; LMain; LMain;
   LTask first; LTask first; LTask first;
   LTask second; LTask second; LTask second;
   LWaiter; LWaiter; LSelectDone; LMain; LMain; LMain; LMain].

(** The state a schedule leads to; the state it started from if it cannot
    be run. *)
Definition after (ls : list label) (s : session) : session :=
  match run ls s with Some s' => s' | None => s end.

(** A state in which the deadline has not cut anything short. *)
Record Calm (s : session) : Prop := {
  calm_ctx : at_ s <> PReturned -> ctxDone s = false;
  calm_out : count is_timeout (out s) = 0%nat
}.

(** [Shutdown] on [m] returns when it is left to run: a run in which the
    deadline does not expire and nobody registers does not panic, has a
    bounded number of steps and, unless [Shutdown] has returned, can take a
    further step; and there is such a run in which it has returned. *)
Definition returns_in_time (m : Manager) : Prop :=
  (forall (ls : list label) (s : session),
     run ls (Manager_Shutdown m) = Some s ->
     no_deadline ls = true -> undisturbed ls = true ->
     panicked s = false
     /\ (List.length ls <= rank (Manager_Shutdown m))%nat
     /\ (at_ s = PReturned
         \/ exists (l : label) (s' : session),
              is_deadline l = false /\ is_register l = false
              /\ step l s = Some s'))
  /\ exists (ls : list label) (s : session),
       run ls (Manager_Shutdown m) = Some s /\ at_ s = PReturned
       /\ deadline_after_wait ls = true /\ snap s = callbacks m.

(** ** More about runs and about the hook *)

(** The callbacks registered by the steps of a schedule, in order. *)
Definition regs (ls : list label) : list ShutdownFunc :=
  flat_map (fun l => match l with LRegister f => [f] | _ => [] end) ls.

Definition is_signal (l : label) : bool :=
  match l with LSignal _ => true | _ => false end.

(** A schedule in which no signal arrives. *)
Definition no_signal (ls : list label) : bool :=
  forallb (fun l => negb (is_signal l)) ls.

(** The same state with one more entry at the head of the log. *)
Definition logged_before (e : Entry) (s : session) : session :=
  {| mgr := mgr s; out := e :: out s; at_ := at_ s; snap := snap s;
     tasks := tasks s; wg := wg s; errChan := errChan s; errCap := errCap s;
     errClosed := errClosed s; wait := wait s; ctxDone := ctxDone s;
     panicked := panicked s |}.

(** The entries by which [Shutdown] reports: the verdict and the errors. *)
Definition is_verdict (e : Entry) : bool := is_completed e || is_timeout e.
Definition report_of (out : list Entry) : list Entry :=
  filter (fun e => is_verdict e || is_error e) out.

(** Before the verdict nothing is reported; from the verdict on the report
    is the verdict followed by the error entries. *)
Definition report_shape (s : session) : Prop :=
  if judged (at_ s)
  then exists v, (v = completed_entry \/ v = timeout_entry)
         /\ report_of (out s) = v :: map error_entry (logged_errors (out s))
  else report_of (out s) = [].

(** The errors that goroutines will still put on [errChan] if they get to
    the end of their calls. *)
Definition unsent_by (t : task) : list error :=
  match st t with
  | TExit | TDone => []
  | _ => error_of (result (fn t))
  end.
Definition unsent (l : list task) : list error := flat_map unsent_by l.

(** A schedule in which only the caller and the timer of the context move. *)
Definition caller_only (ls : list label) : bool :=
  forallb (fun l => match l with
                    | LMain | LSelectDone | LSelectCtx | LDeadline => true
                    | _ => false
                    end) ls.

(** What the caller alone still has to do once the deadline has expired. *)
Definition caller_rank (s : session) : nat :=
  (pc_rank (at_ s) + List.length (pending s) + List.length (errChan s)
   + if ctxDone s then 0 else 1)%nat.

(** The names a callback announces when it runs to its end. *)
Fixpoint names (f : ShutdownFunc) : list string :=
  match f with
  | Return _ | Block => []
  | AwaitDone k => names k
  | LogComponent n k => n :: names k
  end.

(** The names a goroutine has still to announce. *)
Definition to_announce (t : task) : list string :=
  match st t with TRun k => names k | _ => [] end.

(** The component names announced in a log, in log order. *)
Definition is_component (e : Entry) : bool :=
  is_level InfoLevel e && String.eqb (msg e) "shutting down component".
Definition component_names (out : list Entry) : list string :=
  flat_map (fun e =>
              if is_component e
              then flat_map (fun f => match f with
                                      | String _ v => [v]
                                      | Err _ => []
                                      end) (fields e)
              else []) out.

(** The names announced and those still to announce are the names of the
    callbacks started. *)
Definition announcing (s : session) : Prop :=
  Permutation (component_names (out s) ++ flat_map to_announce (tasks s))
    (flat_map names (map fn (tasks s))).

(** The calls of the package-level functions that change the world. *)
Inductive call :=
| CSetup (t : Duration) (l : Logger)
| CRegister (f : ShutdownFunc)
| CRegisterWithName (name : string) (f : ShutdownFunc).

Definition apply_call (w : World) (c : call) : World :=
  match c with
  | CSetup t l => snd (SetupGracefulShutdown t l w)
  | CRegister f => Register f w
  | CRegisterWithName name f => RegisterWithName name f w
  end.

Definition calls (cs : list call) (w : World) : World :=
  fold_left apply_call cs w.

Definition is_setup (c : call) : bool :=
  match c with CSetup _ _ => true | _ => false end.

(** What a sequence of calls registers, in order. *)
Definition registrations (cs : list call) : list ShutdownFunc :=
  flat_map (fun c => match c with
                     | CSetup _ _ => []
                     | CRegister f => [f]
                     | CRegisterWithName name f => [LogComponent name f]
                     end) cs.

(** * Properties *)

(** Facts about lists used below. *)

Lemma update_split {A : Type} (f : A -> A) (l : list A) (j : nat) (x : A) :
  nth_error l j = Some x ->
  exists l1 l2, l = l1 ++ x :: l2 /\ update j f l = l1 ++ f x :: l2
                /\ List.length l1 = j.
Proof.
  revert j. induction l as [|a l IH]; intros [|j] H; simpl in *; try discriminate.
  - injection H as ->. exists [], l. auto.
  - destruct (IH j H) as (l1 & l2 & -> & E & L).
    exists (a :: l1), l2. simpl. rewrite E, L. auto.
Qed.

Lemma count_app (p : Entry -> bool) (l : list Entry) (e : Entry) :
  count p (l ++ [e]) = (count p l + if p e then 1 else 0)%nat.
Proof.
  unfold count. rewrite filter_app, length_app. simpl.
  destruct (p e); reflexivity.
Qed.

Lemma logged_errors_app (l : list Entry) (e : Entry) :
  logged_errors (l ++ [e])
  = logged_errors l ++ (if is_error e then field_errors (fields e) else []).
Proof.
  unfold logged_errors. rewrite flat_map_app. simpl. now rewrite app_nil_r.
Qed.

Lemma undone_app (l1 l2 : list task) :
  undone (l1 ++ l2) = (undone l1 + undone l2)%nat.
Proof. unfold undone. now rewrite filter_app, length_app. Qed.

Lemma sent_app (l1 l2 : list task) : sent (l1 ++ l2) = sent l1 ++ sent l2.
Proof. unfold sent. now rewrite flat_map_app. Qed.

Lemma undone_cons (t : task) (l : list task) :
  undone (t :: l) = ((if running t then 1 else 0) + undone l)%nat.
Proof. unfold undone. simpl. destruct (running t); reflexivity. Qed.

Lemma sent_cons (t : task) (l : list task) : sent (t :: l) = sent_by t ++ sent l.
Proof. reflexivity. Qed.

Lemma undone_zero (l : list task) :
  undone l = 0%nat -> Forall (fun t => st t = TDone) l.
Proof.
  induction l as [|t l IH]; intros H; constructor.
  - rewrite undone_cons in H. unfold running in H. destruct (st t); auto; lia.
  - apply IH. rewrite undone_cons in H. lia.
Qed.

Lemma skipn_nth {A : Type} (l : list A) (n : nat) (x : A) :
  nth_error l n = Some x -> skipn n l = x :: skipn (S n) l.
Proof.
  revert n. induction l as [|a l IH]; intros [|n] H; simpl in *; try discriminate.
  - now injection H as ->.
  - now apply IH.
Qed.

Lemma map_fn_update (j : nat) (t : tstate) (l : list task) :
  map fn (update j (fun x => {| fn := fn x; st := t |}) l) = map fn l.
Proof.
  revert j. induction l as [|a l IH]; intros [|j]; simpl; auto.
  now rewrite IH.
Qed.

(** ** The invariant *)

(** Case analysis on an enabled step. *)
Ltac break_step H :=
  unfold step, main_step, task_step, waiter_step in H;
  repeat match type of H with
  | context [match ?x with _ => _ end] => destruct x eqn:?; try discriminate H
  end;
  injection H as <-; simpl.

Ltac at_pc :=
  repeat match goal with
  | H : at_ ?s = _ |- _ => rewrite H in *
  end; simpl in *.

(** Where a goroutine is updated, name the goroutines before and after it. *)
Ltac split_tasks :=
  match goal with
  | H : nth_error (tasks ?s) ?j = Some ?t |- _ =>
      let l1 := fresh "l1" in let l2 := fresh "l2" in
      let E := fresh "E" in let U := fresh "U" in
      repeat match goal with
      | |- context [update j ?f (tasks s)] =>
          destruct (update_split f _ _ _ H) as (l1 & l2 & E & U & _);
          rewrite U; clear U
      end
  end.

Lemma Inv_enter (p : pc) (m : Manager) :
  p = PWait \/ p = PStart -> Inv (enter p m).
Proof.
  intros [-> | ->]; constructor; simpl; intros; auto; try discriminate;
    try (unfold count in *; simpl in *; lia); constructor.
Qed.

Lemma Inv_step (l : label) (s s' : session) :
  Inv s -> step l s = Some s' -> Inv s'.
Proof.
  intros I H.
  destruct I as [Iloop Itasks Icap Iwg Icoh Ierrs Ient Iwait Ijoin Iclosed
                 Iquiet Idrained Iverd Icomp Ipanic].
  constructor.
  - (* the loop index *)
    break_step H; at_pc; intros; try discriminate; eauto.
    + injection H as <-. lia.
    + injection H as <-. specialize (Iloop _ eq_refl). lia.
  - (* launch order *)
    break_step H; at_pc; rewrite ?map_fn_update; auto.
    + replace (Z.to_nat _) with (List.length (callbacks (mgr s))) by lia.
      now rewrite skipn_all.
    + unfold index in *. destruct (i <? 0) eqn:Ei; try discriminate.
      rewrite map_app, Itasks. simpl.
      replace (Z.to_nat (i - 1 + 1)) with (Z.to_nat i) by lia.
      rewrite (skipn_nth _ _ _ Heqo). simpl.
      now replace (Z.to_nat (i + 1)) with (S (Z.to_nat i)) by lia.
    + specialize (Iloop _ eq_refl).
      replace (Z.to_nat (i + 1)) with 0%nat in Itasks by lia. exact Itasks.
  - (* capacity *)
    break_step H; at_pc; auto.
  - (* the wait group counts the goroutines that are not done *)
    break_step H; at_pc; auto; try split_tasks.
    all: try (rewrite E in Iwg; rewrite undone_app, undone_cons in *;
              unfold running in *; simpl; rewrite ?Heqt0 in *; simpl in *; lia).
    rewrite undone_app. unfold undone at 2. simpl. lia.
  - (* coherence *)
    break_step H; at_pc; auto; try split_tasks.
    all: try (rewrite E in Icoh; apply Forall_app in Icoh as [C1 C2];
              inversion C2 as [|? ? C3 C4]; subst; apply Forall_app; split;
              [assumption|constructor; [|assumption]];
              unfold coherent in *; simpl; rewrite Heqt0 in C3; simpl in C3;
              congruence).
    apply Forall_app. split; [assumption|]. repeat constructor.
  - (* the errors logged and buffered are the errors sent *)
    break_step H; at_pc; auto; try split_tasks.
    all: rewrite ?logged_errors_app; simpl; rewrite ?app_nil_r; auto.
    all: try (assert (C : coherent t)
                by (rewrite E in Icoh; apply Forall_app in Icoh as [_ C2];
                    now inversion C2);
              unfold coherent in C; rewrite Heqt0 in C; simpl in C;
              rewrite E in Ierrs; rewrite sent_app, sent_cons in *;
              unfold sent_by in *; simpl; rewrite Heqt0 in Ierrs;
              first [rewrite <- C | rewrite C | idtac]; simpl in *; auto).
    + rewrite sent_app. simpl. now rewrite app_nil_r.
    + now rewrite Heql1.
    + now rewrite <- app_assoc.
    + rewrite app_assoc. eapply Permutation_trans; [apply Permutation_app_comm|].
      simpl. now apply Permutation_cons_app.
  - (* error entries *)
    break_step H; at_pc; auto.
    all: rewrite ?filter_app, ?logged_errors_app, ?map_app; simpl;
         rewrite ?app_nil_r; auto; now rewrite Ient.
  - (* the waiter exists from [select] on *)
    break_step H; at_pc; auto.
  - (* after [wg.Wait()] the counter is zero *)
    break_step H; at_pc; auto; intros J.
    all: try (destruct (wait s); simpl in *; discriminate).
    all: try (specialize (Ijoin J); lia).
    all: try lia.
  - (* [errChan] is closed from the drain loop on *)
    break_step H; at_pc; auto; congruence.
  - (* no error entry before the drain loop *)
    break_step H; at_pc; auto; try discriminate.
    all: rewrite ?logged_errors_app; simpl; rewrite ?app_nil_r; auto.
  - (* the buffer is empty on return *)
    break_step H; at_pc; auto; try discriminate.
    all: intros R; rewrite R in *; simpl in *; try discriminate; auto.
  - (* one verdict *)
    break_step H; at_pc; auto.
    all: rewrite ?count_app; simpl; try lia.
  - (* completion is only reported once [done] is closed *)
    break_step H; at_pc; auto.
    all: rewrite ?count_app; simpl; rewrite ?Nat.add_0_r; auto.
    all: try (intros P; specialize (Icomp P); congruence).
    + intros P. specialize (Icomp P). rewrite Icomp in Iwait. discriminate.
    + intros _. unfold done_closed in *. now destruct (wait s).
  - (* a panic only follows a timeout *)
    break_step H; at_pc; auto; try congruence.
    all: rewrite ?count_app; simpl; rewrite ?Nat.add_0_r; try congruence.
    all: intros _.
    + exfalso. unfold index in Heqo. specialize (Iloop _ eq_refl).
      destruct (i <? 0) eqn:Ei; [lia|].
      apply nth_error_None in Heqo. lia.
    + assert (J : judged (at_ s) = true) by (destruct (at_ s); now simpl in *).
      rewrite J in Iverd.
      destruct (count is_completed (out s)) eqn:C; [exact Iverd|exfalso].
      assert (W : wait s = WExited) by (apply Icomp; lia).
      rewrite W in Ijoin. specialize (Ijoin eq_refl).
      assert (U : undone (tasks s) = 0%nat) by lia.
      apply undone_zero in U. rewrite Forall_forall in U.
      apply nth_error_In in Heqo. apply U in Heqo. congruence.
    + exfalso.
      destruct (update_split (fun x => x) _ _ _ Heqo) as (l1 & l2 & E & _ & _).
      rewrite E, undone_app, undone_cons in Iwg. unfold running in Iwg.
      rewrite Heqt0 in Iwg. lia.
Qed.

Lemma Inv_run (ls : list label) (s s' : session) :
  Inv s -> run ls s = Some s' -> Inv s'.
Proof.
  revert s. induction ls as [|l ls IH]; simpl; intros s I H.
  - now injection H as <-.
  - destruct (step l s) as [s1|] eqn:E; [|discriminate].
    eauto using Inv_step.
Qed.

Lemma Inv_reachable (s : session) : reachable s -> Inv s.
Proof.
  intros (m & p & Hp & ls & H). eauto using Inv_run, Inv_enter.
Qed.

(** ** Facts about single steps and runs *)

Lemma run_app (l1 l2 : list label) (s : session) :
  run (l1 ++ l2) s
  = match run l1 s with Some s1 => run l2 s1 | None => None end.
Proof.
  revert s. induction l1 as [|l l1 IH]; simpl; intros s; auto.
  destruct (step l s); auto.
Qed.

(** Only a registration changes the manager. *)
Lemma step_mgr (l : label) (s s' : session) :
  is_register l = false -> step l s = Some s' -> mgr s' = mgr s.
Proof. intros R H. break_step H; auto; discriminate. Qed.

Lemma run_mgr (ls : list label) (s s' : session) :
  undisturbed ls = true -> run ls s = Some s' -> mgr s' = mgr s.
Proof.
  revert s. induction ls as [|l ls IH]; simpl; intros s U H.
  - now injection H as <-.
  - apply andb_prop in U as [U1 U2].
    destruct (step l s) as [s1|] eqn:E; [|discriminate].
    rewrite (IH _ U2 H). apply (step_mgr l); auto.
    now destruct (is_register l).
Qed.

(** The snapshot is written once, by the statement that takes it. *)
Lemma step_snap (l : label) (s s' : session) :
  step l s = Some s' ->
  (taken (at_ s) = true -> taken (at_ s') = true /\ snap s' = snap s)
  /\ (taken (at_ s) = false -> taken (at_ s') = true ->
      snap s' = callbacks (mgr s)).
Proof.
  intros H. break_step H; at_pc; split; intros; try discriminate; auto;
    congruence.
Qed.

Lemma run_snap (ls : list label) (s s' : session) :
  taken (at_ s) = true -> run ls s = Some s' ->
  taken (at_ s') = true /\ snap s' = snap s.
Proof.
  revert s. induction ls as [|l ls IH]; simpl; intros s T H.
  - injection H as <-. auto.
  - destruct (step l s) as [s1|] eqn:E; [|discriminate].
    destruct (proj1 (step_snap _ _ _ E) T) as [T1 S1].
    destruct (IH _ T1 H) as [T2 S2]. split; congruence.
Qed.

Lemma run_snap_undisturbed (ls : list label) (s s' : session) :
  undisturbed ls = true -> run ls s = Some s' ->
  taken (at_ s) = false -> taken (at_ s') = true ->
  snap s' = callbacks (mgr s).
Proof.
  revert s. induction ls as [|l ls IH]; simpl; intros s U H T T'.
  - injection H as <-. congruence.
  - apply andb_prop in U as [U1 U2].
    destruct (step l s) as [s1|] eqn:E; [|discriminate].
    assert (M : mgr s1 = mgr s)
      by (apply (step_mgr l); auto; now destruct (is_register l)).
    destruct (taken (at_ s1)) eqn:T1.
    + destruct (run_snap _ _ _ T1 H) as [_ ->].
      now apply (proj2 (step_snap _ _ _ E)).
    + rewrite <- M. now apply IH.
Qed.

(** The log only grows. *)
Lemma step_out (l : label) (s s' : session) :
  step l s = Some s' -> exists ext, out s' = out s ++ ext.
Proof.
  intros H. break_step H;
    solve [exists []; now rewrite app_nil_r | eexists; reflexivity].
Qed.

Lemma run_out (ls : list label) (s s' : session) :
  run ls s = Some s' -> exists ext, out s' = out s ++ ext.
Proof.
  revert s. induction ls as [|l ls IH]; simpl; intros s H.
  - injection H as <-. exists []. now rewrite app_nil_r.
  - destruct (step l s) as [s1|] eqn:E; [|discriminate].
    destruct (step_out _ _ _ E) as [e1 E1]. destruct (IH _ H) as [e2 E2].
    exists (e1 ++ e2). now rewrite E2, E1, app_assoc.
Qed.

Lemma count_mono (p : Entry -> bool) (l ext : list Entry) :
  (count p l <= count p (l ++ ext))%nat.
Proof. unfold count. rewrite filter_app, length_app. lia. Qed.

(** ** Runs in which the deadline does not cut the wait short *)

(** While the caller has not passed its [select] and the context is open, a
    step other than the deadline either keeps it so or is the [select]
    taking [<-done]. *)
Lemma step_before_verdict (l : label) (s s1 : session) :
  step l s = Some s1 -> judged (at_ s) = false -> ctxDone s = false ->
  match l with
  | LDeadline => True
  | LSelectDone => (0 < count is_completed (out s1))%nat
  | LSelectCtx => False
  | _ => judged (at_ s1) = false /\ ctxDone s1 = false
  end.
Proof.
  intros H J C. break_step H; at_pc; auto; try discriminate; try congruence.
  rewrite count_app. simpl. lia.
Qed.

Lemma timely_completed (ls : list label) (s s' : session) :
  run ls s = Some s' -> deadline_after_wait ls = true ->
  judged (at_ s) = false -> ctxDone s = false -> judged (at_ s') = true ->
  (0 < count is_completed (out s'))%nat.
Proof.
  revert s. induction ls as [|l ls IH]; simpl; intros s H D J C J'.
  - injection H as <-. congruence.
  - destruct (step l s) as [s1|] eqn:E; [|discriminate].
    pose proof (step_before_verdict _ _ _ E J C) as B.
    destruct l; try discriminate; try contradiction;
      try (destruct B; now apply (IH s1)).
    destruct (run_out _ _ _ H) as [ext ->].
    pose proof (count_mono is_completed (out s1) ext). lia.
Qed.

(** Once every callback has finished, that stays so. *)
Lemma all_done_step (l : label) (s s' : session) :
  all_done s = true -> step l s = Some s' -> all_done s' = true.
Proof.
  unfold all_done. intros A H. apply andb_prop in A as [L F].
  break_step H; at_pc; try discriminate; rewrite ?L, ?F; auto.
  all: exfalso; rewrite forallb_forall in F; apply nth_error_In in Heqo;
    apply F in Heqo; unfold finished in Heqo; rewrite Heqt0 in Heqo;
    discriminate.
Qed.

Lemma all_done_stable (ls : list label) (s s' : session) :
  all_done s = true -> run ls s = Some s' -> done_before_deadline ls s = true.
Proof.
  revert s. induction ls as [|l ls IH]; simpl; intros s A H; auto.
  destruct (step l s) as [s1|] eqn:E; [|discriminate].
  pose proof (IH s1 (all_done_step l s s1 A E) H).
  destruct l; auto.
Qed.

(** When the deadline does not expire before the caller's [select] has
    chosen and the caller gets past its [select], every callback has
    finished before the deadline. *)
Lemma timely_done (ls : list label) (s s' : session) :
  Inv s -> run ls s = Some s' -> deadline_after_wait ls = true ->
  judged (at_ s) = false -> ctxDone s = false -> judged (at_ s') = true ->
  done_before_deadline ls s = true.
Proof.
  revert s. induction ls as [|l ls IH]; simpl; intros s I H D J C J'.
  - injection H as <-. congruence.
  - destruct (step l s) as [s1|] eqn:E; [|discriminate].
    pose proof (step_before_verdict _ _ _ E J C) as B.
    pose proof (Inv_step _ _ _ I E) as I1.
    destruct l; try discriminate; try contradiction;
      try (destruct B; now apply (IH s1)).
    apply (all_done_stable ls s1 s'); auto.
    clear B. unfold step in E.
    destruct (panicked s); [discriminate|].
    destruct (at_ s) eqn:A; try discriminate.
    unfold done_closed in E. destruct (wait s) eqn:W; try discriminate.
    injection E as <-. unfold all_done. simpl.
    pose proof (inv_joined s I) as Z0. rewrite W in Z0. specialize (Z0 eq_refl).
    pose proof (inv_wg s I) as G. rewrite Z0 in G.
    assert (U : undone (tasks s) = 0%nat) by lia.
    apply undone_zero in U. apply forallb_forall. intros t T.
    rewrite Forall_forall in U. unfold finished. now rewrite (U t T).
Qed.

Lemma sent_all_done (l : list task) :
  Forall (fun t => st t = TDone) l -> sent l = failures (map fn l).
Proof.
  induction 1 as [|t l D _ IH]; [reflexivity|].
  rewrite sent_cons, IH. unfold sent_by. now rewrite D.
Qed.

Lemma failures_rev (l : list ShutdownFunc) :
  Permutation (failures (rev l)) (failures l).
Proof.
  unfold failures. apply Permutation_flat_map, Permutation_sym, Permutation_rev.
Qed.

(** What a run that returned has logged when the deadline did not expire
    before [select] chose: every callback of the snapshot was launched and
    has finished, completion was reported, and the error entries are those
    of the callbacks that returned an error. *)
Lemma report (p : pc) (m : Manager) (ls : list label) (s : session) :
  p = PWait \/ p = PStart ->
  run ls (enter p m) = Some s -> at_ s = PReturned ->
  deadline_after_wait ls = true ->
  count is_completed (out s) = 1%nat
  /\ count is_timeout (out s) = 0%nat
  /\ panicked s = false
  /\ map fn (tasks s) = rev (snap s)
  /\ Forall (fun t => st t = TDone) (tasks s)
  /\ Permutation (logged_errors (out s)) (failures (snap s))
  /\ filter is_error (out s) = map error_entry (logged_errors (out s))
  /\ done_before_deadline ls (enter p m) = true.
Proof.
  intros Hp H R D.
  assert (I : Inv s) by (eapply Inv_run; [apply (Inv_enter p m Hp)|exact H]).
  assert (B : done_before_deadline ls (enter p m) = true).
  { apply (timely_done ls (enter p m) s); auto.
    - now apply Inv_enter.
    - now destruct Hp as [-> | ->].
    - now rewrite R. }
  assert (C : (0 < count is_completed (out s))%nat).
  { apply (timely_completed ls (enter p m) s); auto.
    - now destruct Hp as [-> | ->].
    - now rewrite R. }
  destruct I as [Iloop Itasks Icap Iwg Icoh Ierrs Ient Iwait Ijoin Iclosed
                 Iquiet Idrained Iverd Icomp Ipanic].
  rewrite R in *. simpl in *.
  assert (T : count is_timeout (out s) = 0%nat) by lia.
  assert (A : Forall (fun t => st t = TDone) (tasks s)).
  { apply undone_zero. rewrite (Icomp C) in Ijoin.
    specialize (Ijoin eq_refl). lia. }
  repeat split; auto; try lia.
  - destruct (panicked s); auto. specialize (Ipanic eq_refl). lia.
  - rewrite (Idrained eq_refl), app_nil_r, (sent_all_done _ A), Itasks in Ierrs.
    eapply Permutation_trans; [exact Ierrs|apply failures_rev].
Qed.

(** ** Runs whose callbacks do not wait can be brought to their end *)

Lemma sum_app (l1 l2 : list nat) : sum (l1 ++ l2) = (sum l1 + sum l2)%nat.
Proof. induction l1 as [|a l1 IH]; simpl; auto. unfold sum in *. simpl. lia. Qed.

Lemma firstn_snoc {A : Type} (l : list A) (n : nat) (x : A) :
  nth_error l n = Some x -> firstn (S n) l = firstn n l ++ [x].
Proof.
  revert n. induction l as [|a l IH]; intros [|n] H; simpl in *; try discriminate.
  - now injection H as ->.
  - now rewrite <- IH.
Qed.

Lemma find_running (l : list task) :
  Forall (fun t => st t = TDone) l
  \/ exists j t, nth_error l j = Some t /\ st t <> TDone.
Proof.
  induction l as [|t l [IH | (j & u & N & R)]].
  - left. constructor.
  - destruct (st t) eqn:E.
    1-3: right; exists 0%nat, t; split; [reflexivity|congruence].
    left. now constructor.
  - right. exists (S j), u. auto.
Qed.

Lemma undone_all_done (l : list task) :
  Forall (fun t => st t = TDone) l -> undone l = 0%nat.
Proof.
  induction 1 as [|t l D _ IH]; [reflexivity|].
  rewrite undone_cons, IH. unfold running. now rewrite D.
Qed.

Lemma sent_length (l : list task) : (List.length (sent l) <= List.length l)%nat.
Proof.
  induction l as [|t l IH]; simpl; auto.
  rewrite length_app. unfold sent_by.
  assert (List.length (error_of (result (fn t))) <= 1)%nat
    by (destruct (result (fn t)) as [[|]|]; simpl; lia).
  destruct (st t); simpl; lia.
Qed.

Lemma sent_room (l1 l2 : list task) (t : task) :
  sent_by t = [] ->
  (List.length (sent (l1 ++ t :: l2)) < List.length (l1 ++ t :: l2))%nat.
Proof.
  intros S. rewrite sent_app, sent_cons, S, !length_app. simpl.
  pose proof (sent_length l1). pose proof (sent_length l2). lia.
Qed.

(** The callbacks launched are always those of a tail of the snapshot, the
    last one first. *)
Lemma launched_tail (p : pc) (l : list ShutdownFunc) :
  exists k, launched p l = rev (skipn k l).
Proof.
  destruct p; simpl;
    solve [exists (List.length l); now rewrite skipn_all
          | eexists; reflexivity | exists 0%nat; reflexivity].
Qed.

(** [errChan] has one slot for each callback of the snapshot, so a goroutine
    never waits at its send. *)
Lemma send_has_room (s : session) (j : nat) (t : task) (e : error) :
  Inv s -> nth_error (tasks s) j = Some t -> st t = TSend e ->
  (List.length (errChan s) < errCap s)%nat.
Proof.
  intros I N St.
  destruct (update_split (fun x => x) _ _ _ N) as (l1 & l2 & Sp & _ & _).
  pose proof (Permutation_length (inv_errs s I)) as L.
  rewrite length_app in L.
  assert (Sb : sent_by t = []) by (unfold sent_by; now rewrite St).
  pose proof (sent_room l1 l2 t Sb) as Sr. rewrite <- Sp in Sr.
  destruct (launched_tail (at_ s) (snap s)) as [k K].
  pose proof (inv_tasks s I) as T. rewrite K in T.
  apply (f_equal (@List.length _)) in T.
  rewrite length_map, length_rev, length_skipn in T.
  rewrite (inv_cap s I). lia.
Qed.

Lemma prompt_update (l : list task) (j : nat) (t : task) (x : tstate) :
  Forall task_prompt l -> nth_error l j = Some t ->
  task_prompt {| fn := fn t; st := x |} ->
  Forall task_prompt (update j (fun y => {| fn := fn y; st := x |}) l).
Proof.
  intros F N T.
  destruct (update_split (fun y => {| fn := fn y; st := x |}) _ _ _ N)
    as (l1 & l2 & -> & -> & _).
  apply Forall_app in F as [F1 F2]. inversion F2; subst.
  apply Forall_app. split; auto.
Qed.

Lemma rank_update (l : list task) (j : nat) (t : task) (x : tstate) :
  nth_error l j = Some t ->
  (sum (map task_rank (update j (fun y => {| fn := fn y; st := x |}) l))
   + st_rank (st t)
   = sum (map task_rank l) + st_rank x)%nat.
Proof.
  intros N.
  destruct (update_split (fun y => {| fn := fn y; st := x |}) _ _ _ N)
    as (l1 & l2 & -> & -> & _).
  rewrite !map_app, !sum_app. simpl.
  change (task_rank t) with (st_rank (st t)).
  change (task_rank {| fn := fn t; st := x |}) with (st_rank x). lia.
Qed.

Ltac fire l s' E :=
  exists l, s'; split; [reflexivity|]; split; [reflexivity|];
  split; [exact E|]; split;
  [constructor; [eapply Inv_step; eauto| | | |]|];
  unfold rank, pending, set_st; simpl;
  repeat match goal with
  | H : at_ _ = _ |- _ => rewrite H
  | H : wait _ = _ |- _ => rewrite H
  end; simpl; auto; try discriminate; try lia.

Lemma progress (s : session) :
  Ready s -> at_ s <> PReturned ->
  exists l s', is_deadline l = false /\ is_register l = false
    /\ step l s = Some s' /\ Ready s' /\ (rank s' < rank s)%nat.
Proof.
  intros [I P W Pe Ta] NR.
  pose proof I as [Iloop Itasks Icap Iwg Icoh Ierrs Ient Iwait Ijoin Iclosed
                   Iquiet Idrained Iverd Icomp Ipanic].
  unfold pending in Pe.
  destruct (at_ s) eqn:A; try contradiction; simpl in *.
  - (* before [context.WithTimeout] *)
    assert (E : step LMain s = Some (goto PSnapshot s))
      by (unfold step, main_step; now rewrite P, A).
    fire LMain (goto PSnapshot s) E.
  - (* taking the snapshot *)
    pose (s1 := set_snap (callbacks (mgr s)) s).
    assert (E : step LMain s
              = Some (goto (PLoop (Z.of_nat (List.length (snap s1)) - 1)) s1))
      by (unfold step, main_step; now rewrite P, A).
    fire LMain (goto (PLoop (Z.of_nat (List.length (snap s1)) - 1)) s1) E.
    all: replace (Z.to_nat _) with (List.length (callbacks (mgr s))) by lia.
    all: rewrite firstn_all; auto; lia.
  - (* the launch loop *)
    specialize (Iloop _ eq_refl).
    destruct (i >=? 0) eqn:G.
    + assert (G' : 0 <= i) by (now apply Z.geb_le).
      destruct (nth_error (snap s) (Z.to_nat i)) as [f|] eqn:N;
        [|apply nth_error_None in N; lia].
      assert (X : index (snap s) i = Some f)
        by (unfold index; destruct (i <? 0) eqn:L;
            [apply Z.ltb_lt in L; lia|exact N]).
      pose (s1 := set_tasks (tasks s ++ [{| fn := f; st := TRun f |}])
                    (set_wg (wg s + 1) s)).
      assert (E : step LMain s = Some (goto (PLoop (i - 1)) s1))
        by (unfold step, main_step; now rewrite P, A, G, X).
      replace (Z.to_nat (i + 1)) with (S (Z.to_nat i)) in * by lia.
      rewrite (firstn_snoc _ _ _ N) in *.
      apply Forall_app in Pe as [Pe1 Pe2].
      fire LMain (goto (PLoop (i - 1)) s1) E.
      all: replace (Z.to_nat (i - 1 + 1)) with (Z.to_nat i) by lia; auto.
      * apply Forall_app. split; auto. constructor; auto.
        now inversion Pe2.
      * replace (Z.to_nat (i + 1)) with (S (Z.to_nat i)) by lia.
        rewrite (firstn_snoc _ _ _ N), !map_app, !sum_app. simpl.
        unfold task_rank at 2. simpl. lia.
    + assert (E : step LMain s = Some (goto PSpawn s))
        by (unfold step, main_step; now rewrite P, A, G).
      fire LMain (goto PSpawn s) E.
  - (* starting the waiter *)
    assert (E : step LMain s = Some (goto PSelect (set_wait WWait s)))
      by (unfold step, main_step; now rewrite P, A).
    fire LMain (goto PSelect (set_wait WWait s)) E.
    destruct (wait s); simpl in *; try discriminate; lia.
  - (* at [select] *)
    destruct (find_running (tasks s)) as [D | (j & t & N & R)].
    + (* every callback has finished *)
      assert (Z0 : wg s = 0) by (rewrite Iwg, (undone_all_done _ D); lia).
      destruct (wait s) eqn:Wt; simpl in *; try discriminate.
      * assert (E : step LWaiter s = Some (set_wait WClose s))
          by (unfold step, waiter_step; now rewrite P, Wt, Z0).
        fire LWaiter (set_wait WClose s) E.
      * assert (E : step LWaiter s = Some (set_wait WExited s))
          by (unfold step, waiter_step; now rewrite P, Wt).
        fire LWaiter (set_wait WExited s) E.
      * assert (E : step LSelectDone s
                  = Some (goto PClose (write completed_entry s)))
          by (unfold step, done_closed; now rewrite P, A, Wt).
        fire LSelectDone (goto PClose (write completed_entry s)) E.
    + (* some callback has not *)
      pose proof (rank_update (tasks s) j t) as RU.
      pose proof (prompt_update (tasks s) j t) as PU.
      assert (Tt : task_prompt t)
        by (rewrite Forall_forall in Ta; apply Ta; eapply nth_error_In; eauto).
      unfold task_prompt in Tt.
      destruct (st t) as [k|e| |] eqn:St; try contradiction.
      * destruct k as [[e|]| |k|name k]; simpl in Tt; try discriminate.
        -- assert (E : step (LTask j) s = Some (set_st j (TSend e) s))
             by (unfold step, task_step; now rewrite P, N, St).
           specialize (RU (TSend e) N). specialize (PU (TSend e) Ta N).
           fire (LTask j) (set_st j (TSend e) s) E.
           all: first [now apply PU | simpl in RU; lia].
        -- assert (E : step (LTask j) s = Some (set_st j TExit s))
             by (unfold step, task_step; now rewrite P, N, St).
           specialize (RU TExit N). specialize (PU TExit Ta N).
           fire (LTask j) (set_st j TExit s) E.
           all: first [now apply PU | simpl in RU; lia].
        -- pose (s1 := write (component_entry name) (set_st j (TRun k) s)).
           assert (E : step (LTask j) s = Some s1)
             by (unfold step, task_step; now rewrite P, N, St).
           specialize (RU (TRun k) N). specialize (PU (TRun k) Ta N).
           fire (LTask j) s1 E.
           all: first [now apply PU | simpl in RU; lia].
      * (* at the send: the channel is open and has room *)
        assert (Room : (List.length (errChan s) <? errCap s)%nat = true)
          by (apply Nat.ltb_lt; exact (send_has_room s j t e I N St)).
        pose (s1 := set_st j TExit (set_errChan (errChan s ++ [e]) s)).
        assert (E : step (LTask j) s = Some s1)
          by (unfold step, task_step; now rewrite P, N, St, Iclosed, Room).
        specialize (RU TExit N). specialize (PU TExit Ta N).
        fire (LTask j) s1 E.
        all: first [now apply PU
                   | simpl in RU; rewrite length_app; simpl; lia].
      * (* at [wg.Done()] *)
        destruct (update_split (fun x => x) _ _ _ N) as (l1 & l2 & Sp & _ & _).
        assert (Pos : (wg s - 1 <? 0) = false).
        { apply Z.ltb_ge. rewrite Iwg, Sp, undone_app, undone_cons.
          unfold running. rewrite St. lia. }
        pose (s1 := set_st j TDone (set_wg (wg s - 1) s)).
        assert (E : step (LTask j) s = Some s1)
          by (unfold step, task_step; now rewrite P, N, St, Pos).
        specialize (RU TDone N). specialize (PU TDone Ta N).
        fire (LTask j) s1 E.
        all: first [now apply PU | simpl in RU; lia].
  - (* before [close(errChan)] *)
    assert (E : step LMain s = Some (goto PDrain (close_errChan s)))
      by (unfold step, main_step; now rewrite P, A).
    fire LMain (goto PDrain (close_errChan s)) E.
  - (* the drain loop *)
    destruct (errChan s) as [|e rest] eqn:Ch.
    + assert (E : step LMain s = Some (goto PReturned (close_ctx s)))
        by (unfold step, main_step; now rewrite P, A, Ch, Iclosed).
      fire LMain (goto PReturned (close_ctx s)) E.
    + pose (s1 := write (error_entry e) (set_errChan rest s)).
      assert (E : step LMain s = Some s1)
        by (unfold step, main_step; now rewrite P, A, Ch).
      fire LMain s1 E. rewrite Ch. simpl. lia.
Qed.


(** No timeout so far: the context is open until the return and no timeout
    warning has been written. *)
Lemma Calm_step (l : label) (s s' : session) :
  Calm s -> step l s = Some s' -> is_deadline l = false -> Calm s'.
Proof.
  intros [C O] H D. constructor.
  - break_step H; subst l; at_pc; auto; try discriminate;
      intros N;
      first [exact (C N) | apply C; discriminate | congruence
            | exfalso;
              assert (true = false) by (apply C; (discriminate || exact N));
              discriminate].
  - break_step H; subst l; at_pc; auto; try discriminate.
    all: rewrite ?count_app; simpl; rewrite ?Nat.add_0_r; auto.
    specialize (C ltac:(discriminate)). congruence.
Qed.

(** Being ready is kept by every step of the run itself. *)
Lemma Ready_step (l : label) (s s' : session) :
  Ready s -> Calm s -> step l s = Some s' ->
  is_deadline l = false -> is_register l = false -> Ready s'.
Proof.
  intros [I P W Pe Ta] C H D G.
  assert (I' : Inv s') by (eapply Inv_step; eauto).
  assert (C' : Calm s') by (eapply Calm_step; eauto).
  constructor; auto.
  - destruct (panicked s') eqn:P'; auto.
    pose proof (inv_panicked s' I' P'). pose proof (calm_out s' C'). lia.
  - break_step H; subst l; at_pc; auto; try discriminate.
  - unfold pending in *. break_step H; subst l; at_pc; auto; try discriminate.
    + replace (Z.to_nat _) with (List.length (callbacks (mgr s))) by lia.
      now rewrite firstn_all.
    + unfold index in Heqo. destruct (i <? 0) eqn:L; [discriminate|].
      apply Z.ltb_ge in L.
      replace (Z.to_nat (i + 1)) with (S (Z.to_nat i)) in Pe by lia.
      rewrite (firstn_snoc _ _ _ Heqo) in Pe. apply Forall_app in Pe as [Pe _].
      now replace (Z.to_nat (i - 1 + 1)) with (Z.to_nat i) by lia.
  - unfold pending in *.
    break_step H; subst l; at_pc; auto; try discriminate.
    all: try (apply (prompt_update _ _ _ _ Ta Heqo);
              rewrite Forall_forall in Ta; apply nth_error_In in Heqo;
              apply Ta in Heqo; unfold task_prompt in *; rewrite Heqt0 in Heqo;
              simpl in *; auto; discriminate).
    unfold index in Heqo. destruct (i <? 0) eqn:L; [discriminate|].
    apply Z.ltb_ge in L.
    replace (Z.to_nat (i + 1)) with (S (Z.to_nat i)) in Pe by lia.
    rewrite (firstn_snoc _ _ _ Heqo) in Pe. apply Forall_app in Pe as [_ Pe].
    apply Forall_app. split; auto. constructor; auto. now inversion Pe.
Qed.

(** Every step of the run itself brings it nearer to its end. *)
Lemma rank_step (l : label) (s s' : session) :
  Inv s -> step l s = Some s' -> panicked s' = false ->
  is_deadline l = false -> is_register l = false ->
  (rank s' < rank s)%nat.
Proof.
  intros I H P D G. unfold rank, pending.
  break_step H; subst l; at_pc; auto; try discriminate; try lia.
  all: try (match goal with
            | |- context [update ?j (fun y => {| fn := fn y; st := ?x |}) _] =>
                pose proof (rank_update (tasks s) j _ x Heqo) as RU;
                rewrite Heqt0 in RU; simpl in RU
            end; rewrite ?length_app; simpl; lia).
  - replace (Z.to_nat _) with (List.length (callbacks (mgr s))) by lia.
    rewrite firstn_all. lia.
  - unfold index in Heqo. destruct (i <? 0) eqn:L; [discriminate|].
    apply Z.ltb_ge in L.
    replace (Z.to_nat (i + 1)) with (S (Z.to_nat i)) by lia.
    replace (Z.to_nat (i - 1 + 1)) with (Z.to_nat i) by lia.
    rewrite (firstn_snoc _ _ _ Heqo), !map_app, !sum_app. simpl.
    unfold task_rank at 2. simpl. lia.
  - pose proof (inv_wait s I) as W. rewrite Heqp in W.
    destruct (wait s); simpl in *; try discriminate; lia.
  - match goal with E : errChan s = [] |- _ => rewrite E end. simpl. lia.
Qed.

Lemma Calm_Shutdown (m : Manager) : Calm (Manager_Shutdown m).
Proof. constructor; reflexivity. Qed.

(** A run of [Shutdown] with callbacks that do not wait, in which the
    deadline does not expire and nobody registers: it stays ready and its
    length is bounded. *)
Lemma quiet_run (ls : list label) (s s' : session) :
  Ready s -> Calm s -> run ls s = Some s' ->
  no_deadline ls = true -> undisturbed ls = true ->
  Ready s' /\ Calm s' /\ (List.length ls + rank s' <= rank s)%nat.
Proof.
  revert s. induction ls as [|l ls IH]; simpl; intros s R C H D U.
  - injection H as <-. auto.
  - destruct (step l s) as [s1|] eqn:E; [|discriminate].
    apply andb_prop in D as [D1 D2]. apply andb_prop in U as [U1 U2].
    apply negb_true_iff in D1, U1.
    pose proof (Ready_step l s s1 R C E D1 U1) as R1.
    pose proof (Calm_step l s s1 C E D1) as C1.
    pose proof (rank_step l s s1 (ready_inv s R) E (ready_alive s1 R1) D1 U1).
    destruct (IH s1 R1 C1 H D2 U2) as (R' & C' & L).
    split; [|split]; auto. lia.
Qed.


(** A list of steps that brings such a run to its end without the deadline
    expiring and without anybody registering. *)
Lemma can_finish (s : session) :
  Ready s ->
  exists ls s', no_deadline ls = true /\ undisturbed ls = true
    /\ run ls s = Some s' /\ at_ s' = PReturned.
Proof.
  remember (rank s) as n eqn:Hn. revert s Hn.
  induction n as [n IH] using lt_wf_ind. intros s -> R.
  destruct (at_ s) eqn:A.
  9: { exists [], s. repeat split; auto. }
  all: destruct (progress s R) as (l & s1 & D & G & E & R1 & Lt);
    [congruence|].
  all: destruct (IH _ Lt s1 eq_refl R1) as (ls & s' & D' & G' & Run & Fin).
  all: exists (l :: ls), s'; simpl; rewrite D, G, E; auto.
Qed.

Lemma no_deadline_timely (ls : list label) :
  no_deadline ls = true -> deadline_after_wait ls = true.
Proof.
  induction ls as [|l ls IH]; simpl; auto.
  intros H. apply andb_prop in H as [H1 H2]. destruct l; auto; discriminate.
Qed.

Lemma Ready_Shutdown (m : Manager) :
  Forall (fun f => prompt f = true) (callbacks m) -> Ready (Manager_Shutdown m).
Proof.
  intros F. constructor; simpl; auto; try discriminate.
  apply Inv_enter. now right.
Qed.

Lemma prompt_returns (m : Manager) :
  Forall (fun f => prompt f = true) (callbacks m) -> returns_in_time m.
Proof.
  intros F. pose proof (Ready_Shutdown m F) as R0. split.
  - intros ls s H D U.
    destruct (quiet_run ls _ s R0 (Calm_Shutdown m) H D U) as (R & C & L).
    split; [apply (ready_alive s R)|]. split; [lia|].
    destruct (at_ s) eqn:A; auto; right.
    all: destruct (progress s R) as (l & s' & P1 & P2 & P3 & _);
      [congruence|eauto].
  - destruct (can_finish _ R0) as (ls & s & D & U & H & R).
    exists ls, s. repeat split; auto using no_deadline_timely.
    apply (run_snap_undisturbed ls (Manager_Shutdown m) s); auto.
    now rewrite R.
Qed.

Lemma failures_app (l1 l2 : list ShutdownFunc) :
  failures (l1 ++ l2) = failures l1 ++ failures l2.
Proof. unfold failures. now rewrite flat_map_app. Qed.

Lemma failures_succeed (l : list ShutdownFunc) :
  Forall succeeds l -> failures l = [].
Proof.
  induction 1 as [|f l S _ IH]; [reflexivity|].
  unfold failures in *. simpl. rewrite IH. unfold succeeds in S. now rewrite S.
Qed.

Lemma sent_incl (l : list task) : incl (sent l) (failures (map fn l)).
Proof.
  induction l as [|t l IH]; [easy|].
  rewrite sent_cons. change (failures (map fn (t :: l)))
    with (error_of (result (fn t)) ++ failures (map fn l)).
  apply incl_app.
  - apply incl_appl. unfold sent_by. destruct (st t); try easy; apply incl_refl.
  - now apply incl_appr.
Qed.

Lemma failures_incl (l1 l2 : list ShutdownFunc) :
  incl l1 l2 -> incl (failures l1) (failures l2).
Proof.
  intros H e. unfold failures. rewrite !in_flat_map.
  intros (f & F & E). exists f. auto.
Qed.

Lemma skipn_incl {A : Type} (k : nat) (l : list A) : incl (skipn k l) l.
Proof.
  intros x H. rewrite <- (firstn_skipn k l). apply in_or_app. now right.
Qed.

(** ** The deadline *)

(** C8: a deadline that is zero or negative is replaced by the default of
    30 seconds, a positive one is kept. *)
Theorem NewManager_deadline (t : Duration) (l : Logger) :
  (t <= 0 -> timeout (NewManager t l) = 30 * Second)
  /\ (0 < t -> timeout (NewManager t l) = t)
  /\ 30 * Second = 30000000000.
Proof.
  unfold NewManager. simpl. repeat split; intros.
  - destruct (Z.leb_spec t 0); auto; lia.
  - destruct (Z.leb_spec t 0); auto; lia.
Qed.

Lemma NewManager_deadline_witness :
  timeout (NewManager (-5) "zap") = 30 * Second
  /\ timeout (NewManager (200 * 1000000) "zap") = 200 * 1000000.
Proof.
  split.
  - apply (proj1 (NewManager_deadline (-5) "zap")). lia.
  - apply (proj1 (proj2 (NewManager_deadline (200 * 1000000) "zap"))). lia.
Defined.

(** ** Registration by name *)

(** C9: [RegisterWithName name fn] registers one callback that, when its
    goroutine runs it, first writes the info entry "shutting down component"
    with the field component = name and is then at the start of [fn], so that
    it returns what [fn] returns; the manager is otherwise unchanged. *)
Theorem RegisterWithName_wraps (name : string) (f : ShutdownFunc) (m : Manager) :
  let w := LogComponent name f in
  Manager_RegisterWithName name f m
  = {| timeout := timeout m; callbacks := callbacks m ++ [w];
       logger := logger m |}
  /\ result w = result f
  /\ forall (s : session) (j : nat) (t : task),
       panicked s = false -> nth_error (tasks s) j = Some t -> st t = TRun w ->
       step (LTask j) s
       = Some (write (Info "shutting down component" [String "component" name])
                 (set_st j (TRun f) s)).
Proof.
  simpl. repeat split; auto.
  intros s j t P N S. unfold step, task_step. now rewrite P, N, S.
Qed.

Lemma RegisterWithName_wraps_witness :
  let s := after [LMain; LMain; LMain; LMain] (Manager_Shutdown scenario_ABC) in
  step (LTask 1) s
  = Some (write (Info "shutting down component" [String "component" "db"])
            (set_st 1 (TRun (Return None)) s)).
Proof.
  intros s.
  apply (proj2 (proj2 (RegisterWithName_wraps "db" (Return None)
                         (NewManager Second "zap")))
           s 1%nat {| fn := LogComponent "db" (Return None);
                      st := TRun (LogComponent "db" (Return None)) |});
    vm_compute; reflexivity.
Defined.

(** ** The process-wide hook *)

(** C6, as amended: the first call of [SetupGracefulShutdown] allocates the
    manager; a second call, whatever its arguments, returns the same pointer
    and changes nothing. The deadline of that manager is the effective
    deadline of the first call: the duration supplied there when it is
    positive, 30 seconds otherwise. *)
Theorem Setup_first_call_wins (t1 t2 : Duration) (l1 l2 : Logger) (w : World) :
  hook_once w = false ->
  let r1 := SetupGracefulShutdown t1 l1 w in
  let r2 := SetupGracefulShutdown t2 l2 (snd r1) in
  fst r2 = fst r1 /\ snd r2 = snd r1
  /\ exists p, fst r1 = Some p /\ deref w p = None
       /\ deref (snd r2) p = Some (NewManager t1 l1)
       /\ timeout (NewManager t1 l1) = (if t1 <=? 0 then 30 * Second else t1).
Proof.
  intros O. unfold SetupGracefulShutdown. rewrite O. simpl.
  repeat split. exists (List.length (heap w)). unfold deref. simpl.
  repeat split.
  - apply nth_error_None. lia.
  - rewrite nth_error_app2, Nat.sub_diag by lia. reflexivity.
Qed.

Lemma Setup_first_call_wins_witness :
  let r1 := SetupGracefulShutdown (5 * Second) "zap" initial_world in
  let r2 := SetupGracefulShutdown (-1) "std" (snd r1) in
  fst r2 = fst r1 /\ snd r2 = snd r1
  /\ exists p, fst r1 = Some p /\ deref initial_world p = None
       /\ deref (snd r2) p = Some (NewManager (5 * Second) "zap")
       /\ timeout (NewManager (5 * Second) "zap")
          = (if 5 * Second <=? 0 then 30 * Second else 5 * Second).
Proof.
  apply (Setup_first_call_wins (5 * Second) (-1) "zap" "std" initial_world).
  reflexivity.
Defined.

(** C6, as stated, fails when the first call supplies a deadline that is not
    positive: the shared manager then has the default deadline, not the
    supplied one. *)
Lemma Setup_deadline_counterexample :
  let r1 := SetupGracefulShutdown 0 "zap" initial_world in
  let r2 := SetupGracefulShutdown Second "zap" (snd r1) in
  ~ (exists p m, fst r1 = Some p /\ fst r2 = Some p
       /\ deref (snd r2) p = Some m /\ timeout m = 0).
Proof.
  simpl. intros (p & m & P1 & _ & D & T).
  injection P1 as <-. injection D as <-. discriminate.
Qed.

(** C7: while [defaultHook.manager] is nil the package-level [Register],
    [RegisterWithName] and [Wait] return at once: the world is unchanged,
    nothing is registered and no wait is entered. *)
Theorem uninitialized_is_noop (w : World) (name : string) (f : ShutdownFunc) :
  hook_manager w = None ->
  Register f w = w /\ RegisterWithName name f w = w /\ Wait w = None.
Proof.
  intros H. unfold Register, RegisterWithName, Wait. now rewrite H.
Qed.

Lemma uninitialized_is_noop_witness :
  Register (Return None) initial_world = initial_world
  /\ RegisterWithName "db" (Return None) initial_world = initial_world
  /\ Wait initial_world = None.
Proof.
  apply (uninitialized_is_noop initial_world "db" (Return None)). reflexivity.
Defined.

(** ** The report of a run *)

(** C2, as amended: when every callback of the snapshot returns nil and the
    deadline does not expire before the caller's [select] has chosen (every
    callback has then finished before the deadline), a run of [Shutdown]
    that has returned has logged exactly one completion entry, no error
    entry and no timeout warning; and when no callback has to wait,
    [Shutdown] does return in such runs. *)
Theorem all_succeed_one_completion (m : Manager) :
  (forall (ls : list label) (s : session),
     run ls (Manager_Shutdown m) = Some s -> at_ s = PReturned ->
     deadline_after_wait ls = true -> Forall succeeds (snap s) ->
     done_before_deadline ls (Manager_Shutdown m) = true
     /\ count is_completed (out s) = 1%nat /\ count is_error (out s) = 0%nat
     /\ count is_timeout (out s) = 0%nat /\ panicked s = false)
  /\ (Forall (fun f => prompt f = true) (callbacks m) -> returns_in_time m).
Proof.
  split.
  - intros ls s H R D S.
    destruct (report PStart m ls s (or_intror eq_refl) H R D)
      as (C & T & P & _ & _ & E & F & B).
    rewrite (failures_succeed _ S) in E.
    apply Permutation_sym, Permutation_nil in E.
    repeat split; auto. unfold count. now rewrite F, E.
  - apply prompt_returns.
Qed.

Lemma all_succeed_one_completion_witness :
  let s := after schedule_ABC (Manager_Shutdown scenario_ABC) in
  done_before_deadline schedule_ABC (Manager_Shutdown scenario_ABC) = true
  /\ count is_completed (out s) = 1%nat /\ count is_error (out s) = 0%nat
  /\ count is_timeout (out s) = 0%nat /\ panicked s = false.
Proof.
  intros s.
  apply (proj1 (all_succeed_one_completion scenario_ABC) schedule_ABC s);
    try (vm_compute; reflexivity).
  vm_compute. repeat constructor.
Defined.

(** C2, as stated, fails when the deadline expires after the last callback
    has finished but before the waiter has closed [done]: the three callbacks
    return nil before the deadline, and the run logs the timeout warning and
    no completion entry. *)
Lemma completion_race_counterexample :
  let s := after schedule_ABC_race (Manager_Shutdown scenario_ABC) in
  run schedule_ABC_race (Manager_Shutdown scenario_ABC) = Some s
  /\ at_ s = PReturned /\ Forall succeeds (snap s)
  /\ done_before_deadline schedule_ABC_race (Manager_Shutdown scenario_ABC)
     = true
  /\ count is_completed (out s) <> 1%nat
  /\ out s = [component_entry "db"; timeout_entry].
Proof.
  vm_compute. repeat split; try discriminate. repeat constructor.
Qed.

(** C3, as amended: when exactly one callback of the snapshot returns an
    error, the others return nil and the deadline does not expire before the
    caller's [select] has chosen (every callback, the failing one included,
    has then finished before the deadline), a run of [Shutdown] that has
    returned has launched every callback of the snapshot and each has run to
    its end, completion and no timeout has been logged, and there is exactly
    one error entry, carrying that error; and when no callback has to wait,
    [Shutdown] does return in such runs. *)
Theorem one_failure_is_isolated (m : Manager) :
  (forall (ls : list label) (s : session) (l1 l2 : list ShutdownFunc)
          (f : ShutdownFunc) (e : error),
     run ls (Manager_Shutdown m) = Some s -> at_ s = PReturned ->
     deadline_after_wait ls = true ->
     snap s = l1 ++ f :: l2 -> fails_with e f -> Forall succeeds (l1 ++ l2) ->
     done_before_deadline ls (Manager_Shutdown m) = true
     /\ map fn (tasks s) = rev (snap s)
     /\ Forall (fun t => st t = TDone) (tasks s)
     /\ count is_completed (out s) = 1%nat /\ count is_timeout (out s) = 0%nat
     /\ filter is_error (out s) = [Error "shutdown error" [Err e]]
     /\ panicked s = false)
  /\ (Forall (fun f => prompt f = true) (callbacks m) -> returns_in_time m).
Proof.
  split.
  - intros ls s l1 l2 f e H R D Sn Fe S.
    destruct (report PStart m ls s (or_intror eq_refl) H R D)
      as (C & T & P & L & A & E & F & B).
    apply Forall_app in S as [S1 S2].
    rewrite Sn, failures_app in E.
    change (failures (f :: l2)) with (error_of (result f) ++ failures l2) in E.
    rewrite (failures_succeed _ S1), (failures_succeed _ S2), Fe in E.
    simpl in E. apply Permutation_sym, Permutation_length_1_inv in E.
    repeat split; auto. now rewrite F, E.
  - apply prompt_returns.
Qed.

Lemma one_failure_is_isolated_witness :
  let s := after schedule_D (Manager_Shutdown scenario_D) in
  done_before_deadline schedule_D (Manager_Shutdown scenario_D) = true
  /\ map fn (tasks s) = rev (snap s)
  /\ Forall (fun t => st t = TDone) (tasks s)
  /\ count is_completed (out s) = 1%nat /\ count is_timeout (out s) = 0%nat
  /\ filter is_error (out s) = [Error "shutdown error" [Err "disconnect failed"]]
  /\ panicked s = false.
Proof.
  intros s.
  apply (proj1 (one_failure_is_isolated scenario_D) schedule_D s
           [Return None] [Return None]
           (LogComponent "pool" (Return (Some "disconnect failed"))));
    try (vm_compute; reflexivity).
  vm_compute. repeat constructor.
Defined.

(** C3, as stated, fails in the same way: the three callbacks, one of them
    failing, finish before the deadline, which expires before the waiter
    has closed [done]; the run reports the timeout, not completion. *)
Lemma failure_race_counterexample :
  let s := after schedule_D_race (Manager_Shutdown scenario_D) in
  run schedule_D_race (Manager_Shutdown scenario_D) = Some s
  /\ at_ s = PReturned
  /\ snap s = [Return None] ++
              LogComponent "pool" (Return (Some "disconnect failed"))
              :: [Return None]
  /\ done_before_deadline schedule_D_race (Manager_Shutdown scenario_D) = true
  /\ count is_completed (out s) <> 1%nat
  /\ out s = [component_entry "pool"; timeout_entry;
              error_entry "disconnect failed"].
Proof.
  vm_compute. repeat split; discriminate.
Qed.

(** ** Launch order and the snapshot *)

(** C4: the goroutines are started in the reverse of the order of the
    snapshot, which is the order of registration: while the loop is at index
    [i] the callbacks started are those after [i], the last one first, and
    once the loop is left they are the whole snapshot reversed. The order in
    which the callbacks finish is not fixed by it: two callbacks registered
    as a, b are started as b, a and can finish as a, b as well as b, a. *)
Theorem launch_order_is_reverse :
  (forall (m : Manager) (ls : list label) (s : session),
     run ls (Manager_Shutdown m) = Some s ->
     (forall i, at_ s = PLoop i ->
        map fn (tasks s) = rev (skipn (Z.to_nat (i + 1)) (snap s)))
     /\ (loop_left (at_ s) = true -> map fn (tasks s) = rev (snap s))
     /\ (loop_left (at_ s) = true -> undisturbed ls = true ->
         map fn (tasks s) = rev (callbacks m)))
  /\ (let s1 := after (schedule_ab 1 0) (Manager_Shutdown scenario_ab) in
      let s2 := after (schedule_ab 0 1) (Manager_Shutdown scenario_ab) in
      callbacks scenario_ab = [Return (Some "a"); Return (Some "b")]
      /\ map fn (tasks s1) = [Return (Some "b"); Return (Some "a")]
      /\ map fn (tasks s2) = [Return (Some "b"); Return (Some "a")]
      /\ at_ s1 = PReturned /\ logged_errors (out s1) = ["a"; "b"]
      /\ at_ s2 = PReturned /\ logged_errors (out s2) = ["b"; "a"]).
Proof.
  split.
  - intros m ls s H.
    assert (I : Inv s)
      by (eapply Inv_run; [apply (Inv_enter PStart m); now right|exact H]).
    pose proof (inv_tasks s I) as T.
    repeat split.
    + intros i A. now rewrite A in T.
    + intros L. destruct (at_ s); try discriminate; exact T.
    + intros L U.
      assert (S : snap s = callbacks m)
        by (apply (run_snap_undisturbed ls (Manager_Shutdown m) s U H eq_refl);
            destruct (at_ s); try discriminate; reflexivity).
      rewrite <- S. destruct (at_ s); try discriminate; exact T.
  - vm_compute. repeat split.
Qed.

Lemma launch_order_is_reverse_witness :
  let s := after schedule_ABC (Manager_Shutdown scenario_ABC) in
  map fn (tasks s) = rev (callbacks scenario_ABC).
Proof.
  intros s.
  apply (proj2 (proj2 (proj1 launch_order_is_reverse
                         scenario_ABC schedule_ABC s ltac:(vm_compute; reflexivity))));
    vm_compute; reflexivity.
Defined.

(** C5: once the snapshot is taken it does not change, whatever is
    registered afterwards: in every later state of the run the snapshot is
    the same, the goroutines started are those of a tail of it, and the
    errors logged are errors of its callbacks. *)
Theorem snapshot_is_frozen (s : session) (ls : list label) (s' : session) :
  reachable s -> taken (at_ s) = true -> run ls s = Some s' ->
  snap s' = snap s
  /\ (exists k, map fn (tasks s') = rev (skipn k (snap s)))
  /\ (List.length (tasks s') <= List.length (snap s))%nat
  /\ incl (logged_errors (out s')) (failures (snap s)).
Proof.
  intros R T H.
  destruct (run_snap ls s s' T H) as [T' S].
  assert (I : Inv s') by (eapply Inv_run; [apply Inv_reachable|]; eauto).
  destruct (launched_tail (at_ s') (snap s')) as [k K].
  pose proof (inv_tasks s' I) as L. rewrite K, S in L.
  repeat split; auto.
  - now exists k.
  - rewrite <- (length_map fn), L, length_rev, length_skipn. lia.
  - intros e E.
    assert (E' : In e (sent (tasks s'))).
    { apply (Permutation_in e (inv_errs s' I)). apply in_or_app. now left. }
    apply sent_incl in E'. rewrite L in E'.
    revert E'. apply failures_incl. intros f F.
    apply in_rev in F. now apply skipn_incl in F.
Qed.

Lemma snapshot_is_frozen_witness :
  let s := after [LMain; LMain] (Manager_Shutdown scenario_D) in
  let s' := after (LRegister (Return (Some "late")) :: skipn 2 schedule_D) s in
  snap s' = snap s
  /\ (exists k, map fn (tasks s') = rev (skipn k (snap s)))
  /\ (List.length (tasks s') <= List.length (snap s))%nat
  /\ incl (logged_errors (out s')) (failures (snap s)).
Proof.
  intros s s'.
  apply (snapshot_is_frozen s
           (LRegister (Return (Some "late")) :: skipn 2 schedule_D) s').
  - exists scenario_D, PStart. split; [now right|].
    exists [LMain; LMain]. vm_compute. reflexivity.
  - vm_compute. reflexivity.
  - vm_compute. reflexivity.
Defined.

(** C10: a run of [Shutdown] during which nobody registers leaves the
    manager as it found it; its snapshot is the registry, and a second call
    on the manager it leaves takes the same snapshot. *)
Theorem Shutdown_preserves_registry (m : Manager) (ls : list label)
    (s : session) :
  run ls (Manager_Shutdown m) = Some s -> undisturbed ls = true ->
  mgr s = m
  /\ (taken (at_ s) = true -> snap s = callbacks m)
  /\ forall (ls2 : list label) (s2 : session),
       run ls2 (Manager_Shutdown (mgr s)) = Some s2 -> undisturbed ls2 = true ->
       mgr s2 = m /\ (taken (at_ s2) = true -> snap s2 = callbacks m).
Proof.
  intros H U.
  assert (M : mgr s = m) by (apply (run_mgr ls (Manager_Shutdown m)); auto).
  repeat split; auto.
  - intros T. now apply (run_snap_undisturbed ls (Manager_Shutdown m) s).
  - rewrite (run_mgr ls2 (Manager_Shutdown (mgr s)) s2); auto.
  - intros T. rewrite M in *.
    now apply (run_snap_undisturbed ls2 (Manager_Shutdown m) s2).
Qed.

Lemma Shutdown_preserves_registry_witness :
  let s := after schedule_D (Manager_Shutdown scenario_D) in
  mgr s = scenario_D
  /\ (taken (at_ s) = true -> snap s = callbacks scenario_D)
  /\ forall (ls2 : list label) (s2 : session),
       run ls2 (Manager_Shutdown (mgr s)) = Some s2 -> undisturbed ls2 = true ->
       mgr s2 = scenario_D
       /\ (taken (at_ s2) = true -> snap s2 = callbacks scenario_D).
Proof.
  intros s.
  apply (Shutdown_preserves_registry scenario_D schedule_D s);
    vm_compute; reflexivity.
Defined.

(** ** Past the deadline *)

(** Once the context is done the caller's [select] can take that branch,
    whatever the callbacks do, and it logs the timeout warning. *)
Lemma deadline_ends_wait (s : session) :
  panicked s = false -> at_ s = PSelect -> ctxDone s = true ->
  step LSelectCtx s = Some (goto PClose (write timeout_entry s)).
Proof. intros P A C. unfold step. now rewrite P, A, C. Qed.

(** After its [select] the caller never waits for a callback. *)
Lemma caller_not_blocked (s : session) :
  Inv s -> panicked s = false -> at_ s = PClose \/ at_ s = PDrain ->
  exists s', step LMain s = Some s'.
Proof.
  intros I P [A | A]; unfold step, main_step; rewrite P, A.
  - eauto.
  - pose proof (inv_closed s I) as C. rewrite A in C. simpl in C. rewrite C.
    destruct (errChan s); eauto.
Qed.

(** C1 fails on the code. A callback that is still inside its call when the
    deadline expires and returns an error after [Shutdown] has returned
    sends on the closed [errChan]: the process panics. So does a callback
    that observes the cancellation and returns the error of the context
    once the caller has closed [errChan]. When a callback returns its error
    after the timeout warning but before [close(errChan)], an error entry is
    logged for it. *)
Theorem abandoned_failure_panics :
  let s0 := after (removelast schedule_E_late) (Manager_Shutdown scenario_E) in
  let s := after schedule_E_late (Manager_Shutdown scenario_E) in
  let c := after schedule_F (Manager_Shutdown scenario_F) in
  let r := after schedule_E_race (Manager_Shutdown scenario_E) in
  run (removelast schedule_E_late) (Manager_Shutdown scenario_E) = Some s0
  /\ at_ s0 = PReturned /\ out s0 = [timeout_entry] /\ panicked s0 = false
  /\ map st (tasks s0) = [TSend "connection reset"]
  /\ step (LTask 0) s0 = Some s /\ panicked s = true
  /\ run schedule_F (Manager_Shutdown scenario_F) = Some c
  /\ out c = [timeout_entry] /\ panicked c = true
  /\ run schedule_E_race (Manager_Shutdown scenario_E) = Some r
  /\ at_ r = PReturned
  /\ out r = [timeout_entry; error_entry "connection reset"].
Proof. vm_compute. repeat split. Qed.

(** * Further properties of the coordinator *)

(** ** [Manager.Wait] *)

Lemma step_logged_before (e : Entry) (l : label) (s : session) :
  step l (logged_before e s) = option_map (logged_before e) (step l s).
Proof.
  unfold step, main_step, task_step, waiter_step, done_closed. simpl.
  destruct (panicked s); [reflexivity|].
  destruct l; simpl; try reflexivity.
  - destruct (at_ s); reflexivity.
  - destruct (at_ s); try reflexivity.
    + destruct (i >=? 0); [|reflexivity].
      destruct (index (snap s) i); reflexivity.
    + destruct (errChan s); [|reflexivity].
      destruct (errClosed s); reflexivity.
  - destruct (at_ s); try reflexivity. destruct (wait s); reflexivity.
  - destruct (at_ s); try reflexivity. destruct (ctxDone s); reflexivity.
  - destruct (nth_error (tasks s) j) as [t|]; [|reflexivity].
    destruct (st t) as [[[x|]| |k|n k]|x| |]; try reflexivity.
    + destruct (ctxDone s); reflexivity.
    + destruct (errClosed s); [reflexivity|].
      destruct (List.length (errChan s) <? errCap s)%nat; reflexivity.
    + destruct (wg s - 1 <? 0); reflexivity.
  - destruct (wait s); try reflexivity. destruct (wg s =? 0); reflexivity.
  - destruct (ctx_created (at_ s) && negb (ctxDone s)); reflexivity.
Qed.

Lemma run_logged_before (e : Entry) (ls : list label) (s : session) :
  run ls (logged_before e s) = option_map (logged_before e) (run ls s).
Proof.
  revert s. induction ls as [|l ls IH]; intros s; [reflexivity|].
  simpl. rewrite step_logged_before.
  destruct (step l s) as [s1|]; simpl; auto.
Qed.

(** X2: a run of [Wait] in which the signal [sig] arrives is a run of
    [Shutdown] with the entry for the signal at the head of its log. *)
Theorem Wait_is_signal_then_Shutdown (m : Manager) (sig : string)
    (ls : list label) :
  run (LSignal sig :: ls) (Manager_Wait m)
  = option_map (logged_before (Info "received shutdown signal"
                                 [String "signal" sig]))
      (run ls (Manager_Shutdown m)).
Proof.
  change (run (LSignal sig :: ls) (Manager_Wait m))
    with (run ls (logged_before (signal_entry sig) (Manager_Shutdown m))).
  apply run_logged_before.
Qed.

(** The registry is the registry at the start followed by what the steps of
    the schedule register. *)
Lemma step_registry (l : label) (s s' : session) :
  step l s = Some s' ->
  callbacks (mgr s') = callbacks (mgr s) ++ regs [l]
  /\ timeout (mgr s') = timeout (mgr s) /\ logger (mgr s') = logger (mgr s).
Proof.
  intros H. break_step H; subst l; simpl; rewrite ?app_nil_r; auto.
Qed.

Lemma regs_app (l1 l2 : list label) : regs (l1 ++ l2) = regs l1 ++ regs l2.
Proof. unfold regs. now rewrite flat_map_app. Qed.

Lemma run_registry (ls : list label) (s s' : session) :
  run ls s = Some s' ->
  callbacks (mgr s') = callbacks (mgr s) ++ regs ls
  /\ timeout (mgr s') = timeout (mgr s) /\ logger (mgr s') = logger (mgr s).
Proof.
  revert s. induction ls as [|l ls IH]; intros s H; simpl in H.
  - injection H as <-. simpl. now rewrite app_nil_r.
  - destruct (step l s) as [s1|] eqn:E; [|discriminate].
    destruct (step_registry l s s1 E) as (C1 & T1 & L1).
    destruct (IH s1 H) as (C2 & T2 & L2).
    change (l :: ls) with ([l] ++ ls).
    rewrite regs_app, app_assoc, <- C1. repeat split; congruence.
Qed.

(** X3: whatever else happens during a run of [Wait] or [Shutdown], the
    registry is what it was when the run began followed by the callbacks
    registered meanwhile, in the order of the calls; the deadline and the
    logger of the manager do not change. *)
Theorem registrations_are_kept (p : pc) (m : Manager) (ls : list label)
    (s : session) :
  run ls (enter p m) = Some s ->
  callbacks (mgr s) = callbacks m ++ regs ls
  /\ List.length (callbacks (mgr s))
     = (List.length (callbacks m) + List.length (regs ls))%nat
  /\ timeout (mgr s) = timeout m /\ logger (mgr s) = logger m.
Proof.
  intros H. destruct (run_registry ls (enter p m) s H) as (C & T & L).
  repeat split; auto. now rewrite C, length_app.
Qed.

Lemma registrations_are_kept_witness :
  let ls := [LMain; LMain; LRegister (Return (Some "late"))]
            ++ skipn 2 schedule_D ++ [LRegister Block] in
  let s := after ls (Manager_Shutdown scenario_D) in
  callbacks (mgr s)
  = callbacks scenario_D ++ [Return (Some "late"); Block]
  /\ List.length (callbacks (mgr s)) = (3 + 2)%nat
  /\ timeout (mgr s) = timeout scenario_D /\ logger (mgr s) = logger scenario_D.
Proof.
  intros ls s.
  apply (registrations_are_kept PStart scenario_D ls s).
  vm_compute. reflexivity.
Defined.

(** X1: until a signal arrives [Wait] does nothing: whatever the schedule,
    the steps taken are registrations, the caller is still blocked on
    [<-quit], nothing has been logged, no snapshot has been taken, no
    goroutine has been started and the context does not exist. *)
Theorem Wait_blocks_until_signal (m : Manager) (ls : list label) (s : session) :
  run ls (Manager_Wait m) = Some s -> no_signal ls = true ->
  forallb is_register ls = true
  /\ s = set_mgr (mgr s) (Manager_Wait m)
  /\ callbacks (mgr s) = callbacks m ++ regs ls.
Proof.
  intros H N.
  assert (G : forall ls s0 s, run ls s0 = Some s -> no_signal ls = true ->
              s0 = set_mgr (mgr s0) (Manager_Wait m) ->
              forallb is_register ls = true
              /\ s = set_mgr (mgr s) (Manager_Wait m)).
  { clear. induction ls as [|l ls IH]; simpl; intros s0 s H N E0.
    - injection H as <-. auto.
    - destruct (step l s0) as [s1|] eqn:E; [|discriminate].
      apply andb_prop in N as [N1 N2].
      assert (R : is_register l = true /\ s1 = set_mgr (mgr s1) (Manager_Wait m)).
      { rewrite E0 in E.
        unfold step, main_step, task_step, waiter_step in E.
        destruct l; simpl in *; try discriminate.
        - destruct j; discriminate.
        - injection E as <-. auto. }
      destruct R as [R1 R2]. rewrite R1. simpl. eauto. }
  destruct (G ls (Manager_Wait m) s H N) as [R E]; [reflexivity|].
  repeat split; auto.
  apply (run_registry ls (Manager_Wait m) s H).
Qed.

Lemma Wait_blocks_until_signal_witness :
  let ls := [LRegister (Return None); LRegister Block] in
  let s := after ls (Manager_Wait scenario_D) in
  forallb is_register ls = true
  /\ s = set_mgr (mgr s) (Manager_Wait scenario_D)
  /\ callbacks (mgr s) = callbacks scenario_D ++ regs ls.
Proof.
  intros ls s.
  apply (Wait_blocks_until_signal scenario_D ls s); vm_compute; reflexivity.
Defined.

(** ** The snapshot *)

Lemma run_snapshot (ls : list label) (s0 s : session) :
  run ls s0 = Some s -> taken (at_ s0) = false -> taken (at_ s) = true ->
  exists ls1 ls2, ls = ls1 ++ ls2
    /\ snap s = callbacks (mgr s0) ++ regs ls1
    /\ callbacks (mgr s) = snap s ++ regs ls2.
Proof.
  revert s0. induction ls as [|l ls IH]; intros s0 H T0 T; simpl in H.
  - injection H as <-. congruence.
  - destruct (step l s0) as [s1|] eqn:E; [|discriminate].
    destruct (step_registry l s0 s1 E) as (C1 & _).
    destruct (taken (at_ s1)) eqn:T1.
    + exists [l], ls.
      destruct (run_snap ls s1 s T1 H) as [_ S].
      pose proof (proj2 (step_snap l s0 s1 E) T0 T1) as S1.
      destruct (run_registry ls s1 s H) as (C2 & _).
      assert (R : regs [l] = []).
      { rewrite S1 in *. clear - E T0 T1.
        destruct l; try reflexivity. exfalso.
        unfold step in E. destruct (panicked s0); [discriminate|].
        injection E as <-. simpl in T1. congruence. }
      rewrite R, app_nil_r in *. repeat split; congruence.
    + destruct (IH s1 H T1 T) as (ls1 & ls2 & -> & S & C).
      exists (l :: ls1), ls2. repeat split; auto.
      change (l :: ls1) with ([l] ++ ls1).
      now rewrite regs_app, app_assoc, <- C1.
Qed.

(** X4: the snapshot of a run is the registry at the moment it is taken:
    the callbacks the manager had when the run began, followed by those
    registered before the snapshot; what is registered after it is in the
    registry and not in the snapshot. *)
Theorem snapshot_is_registry_then (p : pc) (m : Manager) (ls : list label)
    (s : session) :
  p = PWait \/ p = PStart ->
  run ls (enter p m) = Some s -> taken (at_ s) = true ->
  exists ls1 ls2, ls = ls1 ++ ls2
    /\ snap s = callbacks m ++ regs ls1
    /\ callbacks (mgr s) = snap s ++ regs ls2.
Proof.
  intros P H T. apply (run_snapshot ls (enter p m) s H); auto.
  now destruct P as [-> | ->].
Qed.

Lemma snapshot_is_registry_then_witness :
  let ls := [LRegister Block; LSignal "interrupt"; LMain; LMain;
             LRegister (Return None); LMain] in
  let s := after ls (Manager_Wait scenario_ab) in
  exists ls1 ls2, ls = ls1 ++ ls2
    /\ snap s = callbacks scenario_ab ++ regs ls1
    /\ callbacks (mgr s) = snap s ++ regs ls2.
Proof.
  intros ls s.
  apply (snapshot_is_registry_then PWait scenario_ab ls s);
    [now left|vm_compute; reflexivity ..].
Defined.

(** ** The report *)

Lemma report_of_app (l : list Entry) (e : Entry) :
  report_of (l ++ [e])
  = report_of l ++ (if is_verdict e || is_error e then [e] else []).
Proof.
  unfold report_of. rewrite filter_app. simpl.
  destruct (is_verdict e || is_error e); reflexivity.
Qed.

Lemma report_shape_step (l : label) (s s' : session) :
  Inv s -> report_shape s -> step l s = Some s' -> report_shape s'.
Proof.
  intros I R H. unfold report_shape in *.
  pose proof (inv_quiet s I) as Q.
  break_step H; at_pc; auto.
  all: rewrite ?report_of_app, ?logged_errors_app; simpl;
    rewrite ?app_nil_r; auto.
  - destruct R as (v & V & R). exists v. split; auto.
    now rewrite R, map_app.
  - exists completed_entry. rewrite R, Q by reflexivity. auto.
  - exists timeout_entry. rewrite R, Q by reflexivity. auto.
Qed.

Lemma report_shape_run (ls : list label) (s s' : session) :
  Inv s -> report_shape s -> run ls s = Some s' -> report_shape s'.
Proof.
  revert s. induction ls as [|l ls IH]; simpl; intros s I R H.
  - now injection H as <-.
  - destruct (step l s) as [s1|] eqn:E; [|discriminate].
    apply (IH s1); eauto using Inv_step, report_shape_step.
Qed.

(** X5: when [Wait] or [Shutdown] has returned, what it has reported, among
    whatever else is in the log, is one verdict, completion or timeout,
    followed by one "shutdown error" entry for each error collected, and
    nothing else; before the verdict it has reported nothing. *)
Theorem report_is_verdict_then_errors (p : pc) (m : Manager) (ls : list label)
    (s : session) :
  p = PWait \/ p = PStart -> run ls (enter p m) = Some s ->
  (judged (at_ s) = false -> report_of (out s) = [])
  /\ (judged (at_ s) = true ->
      exists v, (v = Info "graceful shutdown completed" []
                 \/ v = Warn "graceful shutdown timeout, forcing exit" [])
        /\ report_of (out s)
           = v :: map (fun e => Error "shutdown error" [Err e])
                    (logged_errors (out s))).
Proof.
  intros P H.
  assert (R : report_shape s).
  { apply (report_shape_run ls (enter p m)); auto.
    - now apply Inv_enter.
    - destruct P as [-> | ->]; reflexivity. }
  unfold report_shape in R. split; intros J; rewrite J in R; exact R.
Qed.

Lemma report_is_verdict_then_errors_witness :
  let s := after schedule_D_race (Manager_Shutdown scenario_D) in
  (judged (at_ s) = false -> report_of (out s) = [])
  /\ (judged (at_ s) = true ->
      exists v, (v = Info "graceful shutdown completed" []
                 \/ v = Warn "graceful shutdown timeout, forcing exit" [])
        /\ report_of (out s)
           = v :: map (fun e => Error "shutdown error" [Err e])
                    (logged_errors (out s))).
Proof.
  intros s.
  apply (report_is_verdict_then_errors PStart scenario_D schedule_D_race s);
    [now right|vm_compute; reflexivity].
Defined.

(** ** What a verdict of completion means *)

(** X6: completion is only reported when every callback of the snapshot
    has been started and has returned, and the process has not panicked;
    with a callback in the snapshot that never returns, completion is never
    reported. *)
Theorem completion_is_sound (p : pc) (m : Manager) (ls : list label)
    (s : session) :
  p = PWait \/ p = PStart -> run ls (enter p m) = Some s ->
  (0 < count is_completed (out s))%nat ->
  map fn (tasks s) = rev (snap s)
  /\ Forall (fun t => st t = TDone) (tasks s)
  /\ (forall f, In f (snap s) -> result f <> None)
  /\ count is_timeout (out s) = 0%nat /\ panicked s = false.
Proof.
  intros P H C.
  assert (I : Inv s) by (eapply Inv_run; [apply (Inv_enter p m P)|exact H]).
  pose proof (inv_verdict s I) as V.
  destruct (judged (at_ s)) eqn:J; [|lia].
  assert (T : map fn (tasks s) = rev (snap s)).
  { rewrite (inv_tasks s I). destruct (at_ s); try discriminate; reflexivity. }
  assert (D : Forall (fun t => st t = TDone) (tasks s)).
  { apply undone_zero. pose proof (inv_joined s I) as Z.
    rewrite (inv_completed s I C) in Z. specialize (Z eq_refl).
    pose proof (inv_wg s I). lia. }
  repeat split; auto; try lia.
  - intros f F. apply in_rev in F. rewrite <- T in F.
    apply in_map_iff in F as (t & <- & F).
    pose proof (inv_coh s I) as K. rewrite Forall_forall in K, D.
    specialize (K t F). unfold coherent in K. now rewrite (D t F) in K.
  - destruct (panicked s) eqn:E; auto.
    pose proof (inv_panicked s I E). lia.
Qed.

Lemma completion_is_sound_witness :
  let s := after schedule_D (Manager_Shutdown scenario_D) in
  map fn (tasks s) = rev (snap s)
  /\ Forall (fun t => st t = TDone) (tasks s)
  /\ (forall f, In f (snap s) -> result f <> None)
  /\ count is_timeout (out s) = 0%nat /\ panicked s = false.
Proof.
  intros s.
  apply (completion_is_sound PStart scenario_D schedule_D s);
    [now right|vm_compute; reflexivity|vm_compute; lia].
Defined.

(** ** Panics *)

(** The step by which a run panics. *)
Lemma step_panics (l : label) (s s' : session) :
  Inv s -> step l s = Some s' -> panicked s' = true ->
  s' = panic s /\ panicked s = false /\ errClosed s = true
  /\ exists j t e, l = LTask j /\ nth_error (tasks s) j = Some t
       /\ st t = TSend e.
Proof.
  intros I H P.
  pose proof (inv_loop s I) as Iloop. pose proof (inv_wg s I) as Iwg.
  break_step H; simpl in P; try congruence.
  - exfalso.
    specialize (Iloop _ eq_refl).
    match goal with
    | X : index _ _ = None, G : (_ >=? 0) = true |- _ =>
        unfold index in X; apply Z.geb_le in G;
        destruct (i <? 0) eqn:L; [apply Z.ltb_lt in L; lia|];
        apply nth_error_None in X; lia
    end.
  - repeat split; auto. eauto 10.
  - exfalso.
    match goal with
    | N : nth_error (tasks s) _ = Some _, St : st _ = TExit,
      G : (_ <? 0) = true |- _ =>
        destruct (update_split (fun x => x) _ _ _ N) as (l1 & l2 & E & _ & _);
        rewrite E, undone_app, undone_cons in Iwg; unfold running in Iwg;
        rewrite St in Iwg; apply Z.ltb_lt in G; lia
    end.
Qed.

Lemma run_snoc (ls : list label) (l : label) (s : session) :
  run (ls ++ [l]) s
  = match run ls s with Some s1 => step l s1 | None => None end.
Proof.
  rewrite run_app. destruct (run ls s) as [s1|]; auto.
  simpl. destruct (step l s1); auto.
Qed.

(** X7: a run of [Wait] or [Shutdown] panics in one way only: the last step
    is a goroutine's [errChan <- err] after the caller has closed [errChan],
    which happens only after the timeout warning. An index out of range in
    the launch loop, a negative [WaitGroup] counter or a panic in a run that
    reports completion do not occur. *)
Theorem panic_is_send_after_close (p : pc) (m : Manager) (ls : list label)
    (s : session) :
  p = PWait \/ p = PStart -> run ls (enter p m) = Some s ->
  panicked s = true ->
  exists ls0 j s0 t e,
    ls = ls0 ++ [LTask j] /\ run ls0 (enter p m) = Some s0
    /\ panicked s0 = false /\ s = panic s0
    /\ nth_error (tasks s0) j = Some t /\ st t = TSend e
    /\ errClosed s0 = true
    /\ count is_timeout (out s) = 1%nat /\ count is_completed (out s) = 0%nat.
Proof.
  intros P H X.
  assert (I : Inv s) by (eapply Inv_run; [apply (Inv_enter p m P)|exact H]).
  destruct ls as [|l ls] using rev_ind.
  - injection H as <-. destruct P as [-> | ->]; discriminate.
  - clear IHls. rewrite run_snoc in H.
    destruct (run ls (enter p m)) as [s0|] eqn:R; [|discriminate].
    assert (I0 : Inv s0) by (eapply Inv_run; [apply (Inv_enter p m P)|exact R]).
    destruct (step_panics l s0 s I0 H X)
      as (E & P0 & C & j & t & e & -> & N & St).
    exists ls, j, s0, t, e.
    pose proof (inv_panicked s I X) as T. pose proof (inv_verdict s I) as V.
    repeat split; auto.
    destruct (judged (at_ s)); lia.
Qed.

Lemma panic_is_send_after_close_witness :
  let s := after schedule_F (Manager_Shutdown scenario_F) in
  exists ls0 j s0 t e,
    schedule_F = ls0 ++ [LTask j]
    /\ run ls0 (Manager_Shutdown scenario_F) = Some s0
    /\ panicked s0 = false /\ s = panic s0
    /\ nth_error (tasks s0) j = Some t /\ st t = TSend e
    /\ errClosed s0 = true
    /\ count is_timeout (out s) = 1%nat /\ count is_completed (out s) = 0%nat.
Proof.
  intros s.
  apply (panic_is_send_after_close PStart scenario_F schedule_F s);
    [now right|vm_compute; reflexivity ..].
Defined.

Lemma Calm_run (ls : list label) (s s' : session) :
  Calm s -> run ls s = Some s' -> no_deadline ls = true -> Calm s'.
Proof.
  revert s. induction ls as [|l ls IH]; simpl; intros s C H D.
  - now injection H as <-.
  - destruct (step l s) as [s1|] eqn:E; [|discriminate].
    apply andb_prop in D as [D1 D2]. apply negb_true_iff in D1.
    apply (IH s1); auto. exact (Calm_step l s s1 C E D1).
Qed.

(** X8: without the deadline expiring, a run of [Shutdown] logs no timeout
    warning and does not panic, whatever the callbacks do and whoever
    registers; the context stays open until [Shutdown] returns. *)
Theorem no_timeout_without_deadline (m : Manager) (ls : list label)
    (s : session) :
  run ls (Manager_Shutdown m) = Some s -> no_deadline ls = true ->
  count is_timeout (out s) = 0%nat /\ panicked s = false
  /\ (at_ s <> PReturned -> ctxDone s = false).
Proof.
  intros H D.
  assert (I : Inv s)
    by (eapply Inv_run; [apply (Inv_enter PStart m); now right|exact H]).
  destruct (Calm_run ls (Manager_Shutdown m) s (Calm_Shutdown m) H D)
    as [C O].
  repeat split; auto.
  destruct (panicked s) eqn:P; auto.
  pose proof (inv_panicked s I P). lia.
Qed.

Lemma no_timeout_without_deadline_witness :
  let ls := [LMain; LMain; LMain; LMain; LMain; LMain; LMain; LTask 1] in
  let s := after ls (Manager_Shutdown scenario_D) in
  count is_timeout (out s) = 0%nat /\ panicked s = false
  /\ (at_ s <> PReturned -> ctxDone s = false).
Proof.
  intros ls s.
  apply (no_timeout_without_deadline scenario_D ls s); vm_compute; reflexivity.
Defined.

(** ** The wait group and the error channel *)

Lemma undone_length (l : list task) : (undone l <= List.length l)%nat.
Proof. unfold undone. apply filter_length_le. Qed.

Lemma launched_length (p : pc) (l : list ShutdownFunc) :
  (List.length (launched p l) <= List.length l)%nat.
Proof.
  destruct (launched_tail p l) as [k ->].
  rewrite length_rev, length_skipn. lia.
Qed.

(** X9: the counter of the wait group is the number of goroutines that have
    not reached the end of [wg.Done()]: it is never negative and never above
    the size of the snapshot; and once [wg.Wait()] has returned every
    goroutine has finished and the counter stays at zero. *)
Theorem wait_group_counts_goroutines (p : pc) (m : Manager) (ls : list label)
    (s : session) :
  p = PWait \/ p = PStart -> run ls (enter p m) = Some s ->
  wg s = Z.of_nat (undone (tasks s))
  /\ 0 <= wg s <= Z.of_nat (List.length (snap s))
  /\ (joined (wait s) = true ->
      wg s = 0 /\ Forall (fun t => st t = TDone) (tasks s)
      /\ map fn (tasks s) = rev (snap s)).
Proof.
  intros P H.
  assert (I : Inv s) by (eapply Inv_run; [apply (Inv_enter p m P)|exact H]).
  pose proof (inv_wg s I) as W. pose proof (inv_tasks s I) as T.
  repeat split; auto; try lia.
  - pose proof (undone_length (tasks s)).
    pose proof (launched_length (at_ s) (snap s)) as L.
    rewrite <- T, length_map in L. lia.
  - now apply (inv_joined s I).
  - apply undone_zero. pose proof (inv_joined s I H0). lia.
  - rewrite T. pose proof (inv_wait s I) as N.
    destruct (wait s); try discriminate;
      destruct (at_ s); try discriminate; reflexivity.
Qed.

Lemma wait_group_counts_goroutines_witness :
  let s := after (firstn 16 schedule_D) (Manager_Shutdown scenario_D) in
  wg s = Z.of_nat (undone (tasks s))
  /\ 0 <= wg s <= Z.of_nat (List.length (snap s))
  /\ (joined (wait s) = true ->
      wg s = 0 /\ Forall (fun t => st t = TDone) (tasks s)
      /\ map fn (tasks s) = rev (snap s)).
Proof.
  intros s.
  apply (wait_group_counts_goroutines PStart scenario_D
           (firstn 16 schedule_D) s);
    [now right|vm_compute; reflexivity].
Defined.

(** X10: [errChan] has room for the error of every goroutine: it never
    holds more errors than its capacity, and a goroutine that has an error
    to send while [errChan] is open does not block: its send succeeds and
    puts the error at the end of the buffer. *)
Theorem send_never_blocks (p : pc) (m : Manager) (ls : list label)
    (s : session) (j : nat) (t : task) (e : error) :
  p = PWait \/ p = PStart -> run ls (enter p m) = Some s ->
  panicked s = false -> errClosed s = false ->
  nth_error (tasks s) j = Some t -> st t = TSend e ->
  (List.length (errChan s) < errCap s)%nat
  /\ errCap s = List.length (snap s)
  /\ step (LTask j) s
     = Some (set_st j TExit (set_errChan (errChan s ++ [e]) s)).
Proof.
  intros P H A C N St.
  assert (I : Inv s) by (eapply Inv_run; [apply (Inv_enter p m P)|exact H]).
  pose proof (send_has_room s j t e I N St) as R.
  repeat split; auto using inv_cap.
  unfold step, task_step. rewrite A, N, St, C.
  apply Nat.ltb_lt in R. now rewrite R.
Qed.

Lemma send_never_blocks_witness :
  let ls := [LMain; LMain; LMain; LMain; LMain; LMain; LMain;
             LTask 1; LTask 1] in
  let s := after ls (Manager_Shutdown scenario_D) in
  (List.length (errChan s) < errCap s)%nat
  /\ errCap s = List.length (snap s)
  /\ step (LTask 1) s
     = Some (set_st 1 TExit
               (set_errChan (errChan s ++ ["disconnect failed"]) s)).
Proof.
  intros ls s.
  apply (send_never_blocks PStart scenario_D ls s 1%nat
           {| fn := LogComponent "pool" (Return (Some "disconnect failed"));
              st := TSend "disconnect failed" |});
    [now right|vm_compute; reflexivity ..].
Defined.

Lemma sent_unsent (l : list task) :
  Permutation (sent l ++ unsent l) (failures (map fn l)).
Proof.
  induction l as [|t l IH]; [constructor|].
  change (sent (t :: l)) with (sent_by t ++ sent l).
  change (unsent (t :: l)) with (unsent_by t ++ unsent l).
  change (failures (map fn (t :: l)))
    with (error_of (result (fn t)) ++ failures (map fn l)).
  assert (E : sent_by t ++ unsent_by t = error_of (result (fn t)))
    by (unfold sent_by, unsent_by; destruct (st t); simpl;
        rewrite ?app_nil_r; reflexivity).
  rewrite <- E, <- !app_assoc. apply Permutation_app_head.
  rewrite !app_assoc. apply Permutation_trans
    with ((unsent_by t ++ sent l) ++ unsent l).
  - apply Permutation_app_tail, Permutation_app_comm.
  - rewrite <- !app_assoc. now apply Permutation_app_head.
Qed.

Lemma failures_split (k : nat) (l : list ShutdownFunc) :
  Permutation (failures (rev (skipn k l)) ++ failures (firstn k l))
    (failures l).
Proof.
  rewrite <- (firstn_skipn k l) at 3. rewrite failures_app.
  eapply Permutation_trans; [apply Permutation_app_comm|].
  apply Permutation_app_head, failures_rev.
Qed.

(** X11: no error is reported twice and none is invented: at every point
    of a run the errors logged so far, together with those waiting in
    [errChan], are part of the errors the callbacks of the snapshot return,
    each callback's error counted once. *)
Theorem errors_are_reported_once (p : pc) (m : Manager) (ls : list label)
    (s : session) :
  p = PWait \/ p = PStart -> run ls (enter p m) = Some s ->
  exists rest,
    Permutation (logged_errors (out s) ++ errChan s ++ rest)
      (failures (snap s))
    /\ (count is_error (out s) + List.length (errChan s)
        <= List.length (failures (snap s)))%nat.
Proof.
  intros P H.
  assert (I : Inv s) by (eapply Inv_run; [apply (Inv_enter p m P)|exact H]).
  destruct (launched_tail (at_ s) (snap s)) as [k K].
  pose proof (inv_tasks s I) as T. rewrite K in T.
  assert (Q : Permutation
                (logged_errors (out s) ++ errChan s
                 ++ unsent (tasks s) ++ failures (firstn k (snap s)))
                (failures (snap s))).
  { eapply Permutation_trans; [|apply (failures_split k)].
    rewrite <- T, !app_assoc. apply Permutation_app_tail.
    eapply Permutation_trans; [|apply sent_unsent].
    apply Permutation_app_tail, (inv_errs s I). }
  exists (unsent (tasks s) ++ failures (firstn k (snap s))). split; auto.
  apply Permutation_length in Q. rewrite !length_app in Q.
  unfold count. rewrite (inv_entries s I), length_map. lia.
Qed.

Lemma errors_are_reported_once_witness :
  let s := after schedule_D_race (Manager_Shutdown scenario_D) in
  exists rest,
    Permutation (logged_errors (out s) ++ errChan s ++ rest)
      (failures (snap s))
    /\ (count is_error (out s) + List.length (errChan s)
        <= List.length (failures (snap s)))%nat.
Proof.
  intros s.
  apply (errors_are_reported_once PStart scenario_D schedule_D_race s);
    [now right|vm_compute; reflexivity].
Defined.

(** ** The deadline bounds the wait *)

Lemma drain_returns (buf : list error) (s : session) :
  panicked s = false -> at_ s = PDrain -> errClosed s = true ->
  errChan s = buf ->
  exists s', run (repeat LMain (List.length buf) ++ [LMain]) s = Some s'
    /\ at_ s' = PReturned /\ out s' = out s ++ map error_entry buf
    /\ tasks s' = tasks s /\ panicked s' = false.
Proof.
  revert s. induction buf as [|e buf IH]; intros s P A C B.
  - exists (goto PReturned (close_ctx s)). simpl.
    unfold step, main_step. rewrite P, A, B, C, app_nil_r. auto.
  - destruct (IH (write (error_entry e) (set_errChan buf s)))
      as (s' & R & A' & O & T & P'); auto.
    exists s'. simpl. unfold step at 1, main_step. rewrite P, A, B.
    rewrite R. simpl in O. rewrite <- app_assoc in O. auto.
Qed.

(** X12: once the context is done, the caller at its [select] needs no
    goroutine to finish: by its own steps it logs the timeout warning,
    closes [errChan], logs the errors that are in the buffer, in the order
    in which they were sent, and returns. *)
Theorem timeout_report (s : session) :
  panicked s = false -> at_ s = PSelect -> ctxDone s = true ->
  exists s',
    run (LSelectCtx :: LMain :: repeat LMain (List.length (errChan s))
           ++ [LMain]) s = Some s'
    /\ at_ s' = PReturned
    /\ out s' = out s ++ Warn "graceful shutdown timeout, forcing exit" []
                  :: map (fun e => Error "shutdown error" [Err e]) (errChan s)
    /\ tasks s' = tasks s /\ panicked s' = false.
Proof.
  intros P A C.
  destruct (drain_returns (errChan s)
              (goto PDrain (close_errChan (goto PClose (write timeout_entry s)))))
    as (s' & R & A' & O & T & P'); auto.
  exists s'. simpl. unfold step at 1. rewrite P, A, C.
  unfold step at 1, main_step. simpl. rewrite P.
  simpl in R. rewrite R. simpl in O. rewrite <- app_assoc in O. auto.
Qed.

Lemma timeout_report_witness :
  let s := after [LMain; LMain; LMain; LMain; LMain; LMain; LMain;
                  LTask 1; LTask 1; LTask 1; LDeadline]
             (Manager_Shutdown scenario_D) in
  exists s',
    run (LSelectCtx :: LMain :: repeat LMain (List.length (errChan s))
           ++ [LMain]) s = Some s'
    /\ at_ s' = PReturned
    /\ out s' = out s ++ Warn "graceful shutdown timeout, forcing exit" []
                  :: map (fun e => Error "shutdown error" [Err e]) (errChan s)
    /\ tasks s' = tasks s /\ panicked s' = false.
Proof.
  intros s. apply (timeout_report s); vm_compute; reflexivity.
Defined.

Lemma caller_progress (s : session) :
  Inv s -> panicked s = false -> at_ s <> PWait -> at_ s <> PReturned ->
  exists l s', caller_only [l] = true /\ step l s = Some s'
    /\ panicked s' = false /\ at_ s' <> PWait
    /\ (caller_rank s' < caller_rank s)%nat.
Proof.
  intros I P W R. pose proof (inv_loop s I) as Iloop.
  pose proof (inv_closed s I) as Iclosed.
  unfold caller_rank, pending.
  destruct (at_ s) eqn:A; try contradiction.
  - eexists LMain, _. unfold step, main_step. rewrite P, A.
    split; [reflexivity|split; [reflexivity|simpl]].
    repeat split; auto; try discriminate; lia.
  - eexists LMain, _. unfold step, main_step. rewrite P, A.
    split; [reflexivity|split; [reflexivity|simpl]].
    replace (Z.to_nat _) with (List.length (callbacks (mgr s))) by lia.
    rewrite firstn_all. repeat split; auto; try discriminate; lia.
  - specialize (Iloop _ eq_refl). destruct (i >=? 0) eqn:G.
    + assert (G' : 0 <= i) by (now apply Z.geb_le).
      destruct (nth_error (snap s) (Z.to_nat i)) as [f|] eqn:N;
        [|apply nth_error_None in N; lia].
      assert (X : index (snap s) i = Some f)
        by (unfold index; destruct (i <? 0) eqn:L;
            [apply Z.ltb_lt in L; lia|exact N]).
      eexists LMain, _. unfold step, main_step. rewrite P, A, G, X.
      split; [reflexivity|split; [reflexivity|simpl]].
      rewrite !length_firstn.
      repeat split; auto; try discriminate; lia.
    + eexists LMain, _. unfold step, main_step. rewrite P, A, G.
      split; [reflexivity|split; [reflexivity|simpl]].
      repeat split; auto; try discriminate; lia.
  - eexists LMain, _. unfold step, main_step. rewrite P, A.
    split; [reflexivity|split; [reflexivity|simpl]].
    repeat split; auto; try discriminate; lia.
  - destruct (ctxDone s) eqn:C.
    + eexists LSelectCtx, _. unfold step. rewrite P, A, C.
      split; [reflexivity|split; [reflexivity|simpl]].
      rewrite C. repeat split; auto; try discriminate; lia.
    + eexists LDeadline, _. unfold step. rewrite P, A, C.
      split; [reflexivity|split; [reflexivity|simpl]].
      rewrite A. simpl. repeat split; auto; try discriminate; lia.
  - eexists LMain, _. unfold step, main_step. rewrite P, A.
    split; [reflexivity|split; [reflexivity|simpl]].
    repeat split; auto; try discriminate; lia.
  - simpl in Iclosed.
    destruct (errChan s) as [|e rest] eqn:B.
    + eexists LMain, _. unfold step, main_step. rewrite P, A, B, Iclosed.
      split; [reflexivity|split; [reflexivity|simpl]].
      rewrite ?B. simpl. repeat split; auto; try discriminate.
      destruct (ctxDone s); lia.
    + eexists LMain, _. unfold step, main_step. rewrite P, A, B.
      split; [reflexivity|split; [reflexivity|simpl]].
      rewrite A. simpl. repeat split; auto; try discriminate; lia.
Qed.

Lemma called_step (l : label) (s s' : session) :
  at_ s <> PWait -> step l s = Some s' -> at_ s' <> PWait.
Proof. intros W H. break_step H; at_pc; auto; discriminate. Qed.

Lemma called_run (ls : list label) (s s' : session) :
  at_ s <> PWait -> run ls s = Some s' -> at_ s' <> PWait.
Proof.
  revert s. induction ls as [|l ls IH]; simpl; intros s W H.
  - now injection H as <-.
  - destruct (step l s) as [s1|] eqn:E; [|discriminate].
    eauto using called_step.
Qed.

Lemma caller_returns (s : session) :
  Inv s -> panicked s = false -> at_ s <> PWait ->
  exists ls' s',
    caller_only ls' = true /\ run ls' s = Some s' /\ at_ s' = PReturned
    /\ panicked s' = false /\ (List.length ls' <= caller_rank s)%nat.
Proof.
  remember (caller_rank s) as n eqn:Hn. revert s Hn.
  induction n as [n IH] using lt_wf_ind. intros s -> I P W.
  destruct (at_ s) eqn:A.
  9: { exists [], s. simpl. repeat split; auto. lia. }
  all: destruct (caller_progress s I P) as (l & s1 & C & E & P1 & W1 & Lt);
    try congruence.
  all: destruct (IH _ Lt s1 eq_refl (Inv_step l s s1 I E) P1 W1)
    as (ls' & s' & C' & R & F & P' & L).
  all: exists (l :: ls'), s'; simpl in *; rewrite E;
    apply andb_prop in C as [C _]; rewrite C, C'; repeat split; auto; lia.
Qed.

(** X13: the deadline bounds the wait: from every state of a run of
    [Shutdown] in which the process has not panicked, the caller and the
    timer of the context alone, without any step of a callback, bring
    [Shutdown] to its return, in a number of steps bounded by the size of
    the registry and of the error buffer. A callback that never returns
    cannot keep [Shutdown] from returning. *)
Theorem deadline_bounds_wait (m : Manager) (ls : list label) (s : session) :
  run ls (Manager_Shutdown m) = Some s -> panicked s = false ->
  exists ls' s',
    caller_only ls' = true /\ run ls' s = Some s' /\ at_ s' = PReturned
    /\ panicked s' = false /\ (List.length ls' <= caller_rank s)%nat.
Proof.
  intros H P. apply caller_returns; auto.
  - eapply Inv_run; [apply (Inv_enter PStart m); now right|exact H].
  - apply (called_run ls (Manager_Shutdown m)); [discriminate|exact H].
Qed.

Lemma deadline_bounds_wait_witness :
  let m := registered Second [Block; AwaitDone Block] in
  let s := after [LMain; LMain; LMain] (Manager_Shutdown m) in
  exists ls' s',
    caller_only ls' = true /\ run ls' s = Some s' /\ at_ s' = PReturned
    /\ panicked s' = false /\ (List.length ls' <= caller_rank s)%nat.
Proof.
  intros m s.
  apply (deadline_bounds_wait m [LMain; LMain; LMain]);
    vm_compute; reflexivity.
Defined.

(** ** The package-level functions together *)

Lemma calls_uninitialized (cs : list call) (w : World) :
  hook_manager w = None -> hook_once w = false ->
  forallb (fun c => negb (is_setup c)) cs = true -> calls cs w = w.
Proof.
  intros M O. induction cs as [|c cs IH]; simpl; auto.
  intros N. apply andb_prop in N as [N1 N2].
  destruct c; try discriminate; simpl; unfold Register, RegisterWithName;
    rewrite M; auto.
Qed.

Lemma calls_initialized (cs : list call) (m : Manager) :
  calls cs {| heap := [m]; hook_manager := Some 0%nat; hook_once := true |}
  = {| heap := [{| timeout := timeout m;
                   callbacks := callbacks m ++ registrations cs;
                   logger := logger m |}];
       hook_manager := Some 0%nat; hook_once := true |}.
Proof.
  revert m. induction cs as [|c cs IH]; intros m; simpl.
  - rewrite app_nil_r. now destruct m.
  - destruct c; simpl.
    + apply IH.
    + unfold Register. simpl. rewrite IH. simpl. now rewrite <- app_assoc.
    + unfold RegisterWithName. simpl. rewrite IH. simpl.
      now rewrite <- app_assoc.
Qed.

(** X14: the package-level calls of a process, taken together: what is
    registered before the first [SetupGracefulShutdown] is dropped; the
    first setup creates the one shared manager, with its logger and its
    deadline (30 seconds if the deadline given is not positive); later
    setups change nothing; and every callback registered after the first
    setup is in the registry of that manager, in the order of the calls, a
    named one wrapped in its announcement. [Wait] then waits on that
    manager. *)
Theorem package_calls (pre post : list call) (t : Duration) (l : Logger) :
  forallb (fun c => negb (is_setup c)) pre = true ->
  let m := {| timeout := if t <=? 0 then 30 * Second else t;
              callbacks := registrations post;
              logger := l |} in
  let w := calls (pre ++ CSetup t l :: post) initial_world in
  calls pre initial_world = initial_world
  /\ heap w = [m] /\ hook_manager w = Some 0%nat /\ hook_once w = true
  /\ 0 < timeout m
  /\ Wait w = Some (Manager_Wait m).
Proof.
  intros N m w.
  assert (E0 : calls pre initial_world = initial_world)
    by (apply calls_uninitialized; auto).
  assert (E : w = {| heap := [m]; hook_manager := Some 0%nat;
                     hook_once := true |}).
  { unfold w, calls. rewrite fold_left_app. fold (calls pre initial_world).
    rewrite E0. simpl. apply (calls_initialized post (NewManager t l)). }
  rewrite E. unfold Wait, deref. simpl. repeat split; auto.
  destruct (Z.leb_spec t 0); unfold Second; lia.
Qed.

Lemma package_calls_witness :
  let pre := [CRegister Block; CRegisterWithName "early" (Return None)] in
  let post := [CRegister (Return None); CSetup Second "std";
               CRegisterWithName "db" (Return (Some "busy"))] in
  let m := {| timeout := if 0 <=? 0 then 30 * Second else 0;
              callbacks := registrations post;
              logger := "zap" |} in
  let w := calls (pre ++ CSetup 0 "zap" :: post) initial_world in
  calls pre initial_world = initial_world
  /\ heap w = [m] /\ hook_manager w = Some 0%nat /\ hook_once w = true
  /\ 0 < timeout m
  /\ Wait w = Some (Manager_Wait m).
Proof.
  intros pre post.
  apply (package_calls pre post 0 "zap"). reflexivity.
Defined.

(** ** Announcements *)

Lemma completed_all_done (s : session) :
  Inv s -> (0 < count is_completed (out s))%nat ->
  map fn (tasks s) = rev (snap s)
  /\ Forall (fun t => st t = TDone) (tasks s).
Proof.
  intros I C. pose proof (inv_verdict s I) as V.
  destruct (judged (at_ s)) eqn:J; [|lia]. split.
  - rewrite (inv_tasks s I). destruct (at_ s); try discriminate; reflexivity.
  - apply undone_zero. pose proof (inv_joined s I) as Z.
    rewrite (inv_completed s I C) in Z. specialize (Z eq_refl).
    pose proof (inv_wg s I). lia.
Qed.

Lemma component_names_app (l : list Entry) (e : Entry) :
  component_names (l ++ [e]) = component_names l ++ component_names [e].
Proof. unfold component_names. now rewrite flat_map_app. Qed.

Lemma announcing_step (l : label) (s s' : session) :
  announcing s -> step l s = Some s' -> announcing s'.
Proof.
  unfold announcing. intros A H.
  break_step H; rewrite ?map_fn_update; auto; try split_tasks.
  all: rewrite ?component_names_app; simpl; rewrite ?app_nil_r; auto.
  all: try (rewrite E in A at 1; rewrite !flat_map_app in *; simpl in *;
            unfold to_announce in *; simpl in *; rewrite Heqt0 in A;
            simpl in A; auto).
  - rewrite map_app, !flat_map_app, app_assoc. simpl.
    change (to_announce {| fn := s0; st := TRun s0 |}) with (names s0).
    rewrite !app_nil_r. now apply Permutation_app_tail.
  - eapply Permutation_trans; [|exact A]. rewrite <- !app_assoc.
    apply Permutation_app_head. simpl.
    apply (Permutation_middle (flat_map _ l1)).
Qed.

Lemma announcing_run (ls : list label) (s s' : session) :
  announcing s -> run ls s = Some s' -> announcing s'.
Proof.
  revert s. induction ls as [|l ls IH]; simpl; intros s A H.
  - now injection H as <-.
  - destruct (step l s) as [s1|] eqn:E; [|discriminate].
    eauto using announcing_step.
Qed.

Lemma names_rev (l : list ShutdownFunc) :
  Permutation (flat_map names (rev l)) (flat_map names l).
Proof. apply Permutation_flat_map, Permutation_sym, Permutation_rev. Qed.

(** X15: the announcements "shutting down component" in the log of a run
    of [Shutdown] are those of the callbacks registered by name that have
    been started and have got that far, each name once for each time it was
    registered; when completion is reported, they are exactly the names
    registered in the snapshot. *)
Theorem components_announced_once (m : Manager) (ls : list label)
    (s : session) :
  run ls (Manager_Shutdown m) = Some s ->
  Permutation (component_names (out s) ++ flat_map to_announce (tasks s))
    (flat_map names (map fn (tasks s)))
  /\ ((0 < count is_completed (out s))%nat ->
      Permutation (component_names (out s)) (flat_map names (snap s))).
Proof.
  intros H.
  assert (A : announcing s)
    by (apply (announcing_run ls (Manager_Shutdown m)); [constructor|exact H]).
  split; [exact A|]. intros C.
  assert (I : Inv s)
    by (eapply Inv_run; [apply (Inv_enter PStart m); now right|exact H]).
  destruct (completed_all_done s I C) as [T D].
  unfold announcing in A. rewrite T in A.
  assert (N : flat_map to_announce (tasks s) = []).
  { clear - D. induction D as [|t l D _ IH]; [reflexivity|].
    simpl. unfold to_announce at 1. now rewrite D. }
  rewrite N, app_nil_r in A.
  eapply Permutation_trans; [exact A|apply names_rev].
Qed.

Lemma components_announced_once_witness :
  let s := after schedule_ABC (Manager_Shutdown scenario_ABC) in
  Permutation (component_names (out s) ++ flat_map to_announce (tasks s))
    (flat_map names (map fn (tasks s)))
  /\ ((0 < count is_completed (out s))%nat ->
      Permutation (component_names (out s)) (flat_map names (snap s))).
Proof.
  intros s.
  apply (components_announced_once scenario_ABC schedule_ABC s).
  vm_compute. reflexivity.
Defined.

(** ** What a run leaves behind *)

Lemma returned_ctx_step (l : label) (s s' : session) :
  (at_ s = PReturned -> ctxDone s = true) -> step l s = Some s' ->
  at_ s' = PReturned -> ctxDone s' = true.
Proof.
  intros C H. break_step H; at_pc; auto; try discriminate.
Qed.

Lemma returned_ctx (ls : list label) (s s' : session) :
  (at_ s = PReturned -> ctxDone s = true) -> run ls s = Some s' ->
  at_ s' = PReturned -> ctxDone s' = true.
Proof.
  revert s. induction ls as [|l ls IH]; simpl; intros s C H.
  - now injection H as <-.
  - destruct (step l s) as [s1|] eqn:E; [|discriminate].
    apply (IH s1); auto. exact (returned_ctx_step l s s1 C E).
Qed.

(** X16: a run that has returned after reporting completion leaves nothing
    running: every goroutine it started has finished, the goroutine of
    [wg.Wait()] has exited, the timer of the context cannot fire any more,
    and the only thing that can still happen to the state is a
    registration. *)
Theorem completion_leaves_nothing_running (p : pc) (m : Manager)
    (ls : list label) (s : session) :
  p = PWait \/ p = PStart -> run ls (enter p m) = Some s ->
  at_ s = PReturned -> (0 < count is_completed (out s))%nat ->
  Forall (fun t => st t = TDone) (tasks s) /\ wait s = WExited
  /\ ctxDone s = true
  /\ forall (l : label) (s' : session),
       step l s = Some s' -> exists f, l = LRegister f.
Proof.
  intros P H R C.
  assert (I : Inv s) by (eapply Inv_run; [apply (Inv_enter p m P)|exact H]).
  destruct (completed_all_done s I C) as [_ D].
  pose proof (inv_completed s I C) as W.
  assert (X : ctxDone s = true).
  { apply (returned_ctx ls (enter p m) s); auto.
    destruct P as [-> | ->]; discriminate. }
  repeat split; auto.
  intros l s' E. unfold step, main_step, waiter_step in E.
  rewrite R, W, X in E. destruct (panicked s); [discriminate|].
  destruct l; try discriminate; eauto.
  destruct (nth_error (tasks s) j) as [t|] eqn:N; [|discriminate].
  rewrite Forall_forall in D. apply nth_error_In in N.
  unfold task_step in E. rewrite (D t N) in E. discriminate.
Qed.

Lemma completion_leaves_nothing_running_witness :
  let s := after schedule_D (Manager_Shutdown scenario_D) in
  Forall (fun t => st t = TDone) (tasks s) /\ wait s = WExited
  /\ ctxDone s = true
  /\ forall (l : label) (s' : session),
       step l s = Some s' -> exists f, l = LRegister f.
Proof.
  intros s.
  apply (completion_leaves_nothing_running PStart scenario_D schedule_D s);
    [now right|vm_compute; reflexivity ..|vm_compute; lia].
Defined.

(** X17: with a callback in the snapshot that never returns, the goroutine
    of [wg.Wait()] never gets past [wg.Wait()], so that it is left behind,
    and [Shutdown] can only return by the timeout, after the deadline has
    expired. *)
Theorem blocked_callback_forces_timeout (m : Manager) (ls : list label)
    (s : session) (f : ShutdownFunc) :
  run ls (Manager_Shutdown m) = Some s ->
  In f (snap s) -> result f = None ->
  joined (wait s) = false /\ count is_completed (out s) = 0%nat
  /\ (at_ s = PReturned ->
      count is_timeout (out s) = 1%nat /\ no_deadline ls = false).
Proof.
  intros H F N.
  assert (I : Inv s)
    by (eapply Inv_run; [apply (Inv_enter PStart m); now right|exact H]).
  assert (J : joined (wait s) = false).
  { destruct (joined (wait s)) eqn:J; auto. exfalso.
    pose proof (inv_joined s I J) as Z. pose proof (inv_wg s I) as W.
    assert (D : Forall (fun t => st t = TDone) (tasks s))
      by (apply undone_zero; lia).
    pose proof (inv_tasks s I) as T. pose proof (inv_wait s I) as B.
    assert (L : map fn (tasks s) = rev (snap s)).
    { rewrite T. destruct (wait s); try discriminate;
        destruct (at_ s); try discriminate; reflexivity. }
    apply in_rev in F. rewrite <- L in F.
    apply in_map_iff in F as (t & <- & F).
    pose proof (inv_coh s I) as K. rewrite Forall_forall in K, D.
    specialize (K t F). unfold coherent in K. now rewrite (D t F) in K. }
  assert (C : count is_completed (out s) = 0%nat).
  { destruct (count is_completed (out s)) eqn:C; auto.
    rewrite (inv_completed s I) in J by lia. discriminate. }
  split; [exact J|]. split; [exact C|]. intros R.
  pose proof (inv_verdict s I) as V. rewrite R in V. simpl in V.
  split; [lia|].
  destruct (no_deadline ls) eqn:D; auto. exfalso.
  pose proof (calm_out s (Calm_run ls _ s (Calm_Shutdown m) H D)). lia.
Qed.

Lemma blocked_callback_forces_timeout_witness :
  let m := registered Second [Block; Return None] in
  let ls := [LMain; LMain; LMain; LMain; LMain; LMain; LTask 0; LTask 0;
             LDeadline; LSelectCtx; LMain; LMain] in
  let s := after ls (Manager_Shutdown m) in
  joined (wait s) = false /\ count is_completed (out s) = 0%nat
  /\ (at_ s = PReturned ->
      count is_timeout (out s) = 1%nat /\ no_deadline ls = false).
Proof.
  intros m ls s.
  apply (blocked_callback_forces_timeout m ls s Block);
    [vm_compute; reflexivity|vm_compute; auto|reflexivity].
Defined.
